(** * Latin quote quiz (game.py): a shallow embedding and its properties

    The program keeps a list of quotes in [quotes.json], adds quotes,
    lists them and plays a quiz over a random sample of them.

    Modelling decisions.
    - A Python [str] is a list of code points ([N]).  The file is a list of
      bytes; it is opened with [encoding="utf-8"], so reading decodes it
      (strictly: [UnicodeDecodeError] on bytes that are not UTF-8) and
      writing encodes the text.
    - The objects [json.load] can return are the type [value]: [None],
      booleans, integers, strings, lists and dictionaries with string keys
      (an association list in insertion order, keys unique).  Two kinds of
      object are outside the model, and the decoder answers [PUnsupported]
      as soon as it meets one: floats (a number literal with a fraction or
      an exponent, [NaN], [Infinity]) and strings with a lone surrogate
      (from a [\u] escape that is half of a pair), which the utf-8 stream
      would refuse to write back.
    - [json.dump(..., indent=2, ensure_ascii=False)] and [json.load] are
      library code: they are modelled by an encoder and a recursive-descent
      decoder written after the library's behaviour.  Resource limits (the
      interpreter's recursion depth, the digit limit of integer
      conversion) are not modelled; nor is the translation of newlines,
      which changes nothing the decoder returns.
    - The random source is a tape of numbers, [random.sample] is the
      library's pool algorithm (a partial shuffle; for large populations
      the library draws positions by rejection instead, distinct as well),
      [input] reads the next line of [stdin].
    - What the program prints is recorded as a list of [event]s, one
      constructor per [print] statement of the source.
    - [KeyError], [TypeError] and [AttributeError], raised when a value does
      not have the shape the code expects, are one exception, [DataError]. *)

From Stdlib Require Import String Ascii.
From Stdlib Require Import List NArith ZArith Lia Bool Permutation.
Import ListNotations.

Local Open Scope N_scope.

(** ** Text *)

Definition char := N.
Definition str := list char.

(** An ASCII literal as a Python string. *)
Definition u (s : string) : str := map N_of_ascii (list_ascii_of_string s).

Definition str_eqb (a b : str) : bool :=
  if list_eq_dec N.eq_dec a b then true else false.

Definition is_high_surrogate (c : char) : bool :=
  (55296 <=? c) && (c <=? 56319).

Definition is_low_surrogate (c : char) : bool :=
  (56320 <=? c) && (c <=? 57343).

(** A code point the utf-8 codec accepts: below 0x110000, not a
    surrogate. *)
Definition scalar (c : char) : bool :=
  (c <? 1114112) && negb (is_high_surrogate c) && negb (is_low_surrogate c).

Definition scalar_text (s : str) : Prop := Forall (fun c => scalar c = true) s.

(** ** The utf-8 codec of the file *)

Definition byte := N.
Definition bytes := list byte.

Definition utf8_encode_char (c : char) : option bytes :=
  if negb (scalar c) then None
  else if c <? 128 then Some [c]
  else if c <? 2048 then Some [192 + c / 64; 128 + c mod 64]
  else if c <? 65536 then
    Some [224 + c / 64 / 64; 128 + (c / 64) mod 64; 128 + c mod 64]
  else
    Some [240 + c / 64 / 64 / 64; 128 + (c / 64 / 64) mod 64;
          128 + (c / 64) mod 64; 128 + c mod 64].

(** [str.encode("utf-8")]; [None] stands for [UnicodeEncodeError]. *)
Fixpoint utf8_encode (t : str) : option bytes :=
  match t with
  | [] => Some []
  | c :: t' =>
      match utf8_encode_char c, utf8_encode t' with
      | Some a, Some b => Some (a ++ b)
      | _, _ => None
      end
  end.

Definition in_range (b lo hi : byte) : bool := (lo <=? b) && (b <=? hi).

(** [bytes.decode("utf-8")], strict: overlong forms, surrogates, values
    above 0x10FFFF, stray or missing continuation bytes are refused;
    [None] stands for [UnicodeDecodeError]. *)
Fixpoint utf8_decode (bs : bytes) : option str :=
  match bs with
  | [] => Some []
  | b0 :: r0 =>
      if b0 <? 128 then option_map (cons b0) (utf8_decode r0)
      else if in_range b0 194 223 then
        match r0 with
        | b1 :: r1 =>
            if in_range b1 128 191
            then option_map (cons ((b0 - 192) * 64 + (b1 - 128)))
                   (utf8_decode r1)
            else None
        | _ => None
        end
      else if in_range b0 224 239 then
        match r0 with
        | b1 :: b2 :: r2 =>
            if in_range b1 (if b0 =? 224 then 160 else 128)
                 (if b0 =? 237 then 159 else 191)
               && in_range b2 128 191
            then option_map
                   (cons (((b0 - 224) * 64 + (b1 - 128)) * 64 + (b2 - 128)))
                   (utf8_decode r2)
            else None
        | _ => None
        end
      else if in_range b0 240 244 then
        match r0 with
        | b1 :: b2 :: b3 :: r3 =>
            if in_range b1 (if b0 =? 240 then 144 else 128)
                 (if b0 =? 244 then 143 else 191)
               && in_range b2 128 191 && in_range b3 128 191
            then option_map
                   (cons ((((b0 - 240) * 64 + (b1 - 128)) * 64
                           + (b2 - 128)) * 64 + (b3 - 128)))
                   (utf8_decode r3)
            else None
        | _ => None
        end
      else None
  end.

(** ** Python values *)

Unset Elimination Schemes.
Inductive value : Type :=
| VNone
| VBool (b : bool)
| VInt (z : Z)
| VStr (s : str)
| VList (l : list value)
| VDict (d : list (str * value)).
Set Elimination Schemes.

(** Truth value of an object ([if not quotes], [if quote.get('notes')]). *)
Definition truthy (v : value) : bool :=
  match v with
  | VNone => false
  | VBool b => b
  | VInt z => negb (z =? 0)%Z
  | VStr s => match s with [] => false | _ => true end
  | VList l => match l with [] => false | _ => true end
  | VDict d => match d with [] => false | _ => true end
  end.

(** [d.get(k)] on an association list. *)
Fixpoint dict_get (d : list (str * value)) (k : str) : option value :=
  match d with
  | [] => None
  | (k', v) :: d' => if str_eqb k' k then Some v else dict_get d' k
  end.

(** [d[k] = v]: the value of an existing key is replaced in place, a new key
    goes to the end. *)
Fixpoint dict_set (d : list (str * value)) (k : str) (v : value)
  : list (str * value) :=
  match d with
  | [] => [(k, v)]
  | (k', v') :: d' =>
      if str_eqb k' k then (k', v) :: d' else (k', v') :: dict_set d' k v
  end.

(** ** json.dump with indent=2 and ensure_ascii=False *)

Definition hexdigit (n : N) : char :=
  if n <? 10 then 48 + n else 87 + n.

(** [ESCAPE_DCT]: the backslash, the double quote and the control characters
    are escaped; every other code point is written as it is. *)
Definition escape_char (c : char) : str :=
  if c =? 34 then [92; 34]
  else if c =? 92 then [92; 92]
  else if c =? 10 then [92; 110]
  else if c =? 13 then [92; 114]
  else if c =? 9 then [92; 116]
  else if c =? 8 then [92; 98]
  else if c =? 12 then [92; 102]
  else if c <? 32 then
    [92; 117; hexdigit (c / 4096 mod 16); hexdigit (c / 256 mod 16);
     hexdigit (c / 16 mod 16); hexdigit (c mod 16)]
  else [c].

Definition encode_basestring (s : str) : str :=
  [34] ++ flat_map escape_char s ++ [34].

Fixpoint digits_aux (fuel : nat) (n : N) (acc : str) : str :=
  match fuel with
  | O => acc
  | S f =>
      if n <? 10 then (48 + n) :: acc
      else digits_aux f (n / 10) ((48 + n mod 10) :: acc)
  end.

Definition digits (n : N) : str := digits_aux (S (N.to_nat (N.size n))) n [].

(** [int.__repr__] *)
Definition intstr (z : Z) : str :=
  match z with
  | Zneg p => 45 :: digits (Npos p)
  | _ => digits (Z.to_N z)
  end.

Definition newline_indent (lvl : nat) : str := 10 :: repeat 32 (2 * lvl).

Fixpoint encode (lvl : nat) (v : value) : str :=
  match v with
  | VNone => [110; 117; 108; 108]
  | VBool true => [116; 114; 117; 101]
  | VBool false => [102; 97; 108; 115; 101]
  | VInt z => intstr z
  | VStr s => encode_basestring s
  | VList [] => [91; 93]
  | VList (x :: xs) =>
      [91] ++ newline_indent (S lvl) ++ encode (S lvl) x
      ++ flat_map (fun y => [44] ++ newline_indent (S lvl) ++ encode (S lvl) y)
           xs
      ++ newline_indent lvl ++ [93]
  | VDict [] => [123; 125]
  | VDict ((k, x) :: kxs) =>
      [123] ++ newline_indent (S lvl)
      ++ encode_basestring k ++ [58; 32] ++ encode (S lvl) x
      ++ flat_map (fun ky => [44] ++ newline_indent (S lvl)
                     ++ encode_basestring (fst ky) ++ [58; 32]
                     ++ encode (S lvl) (snd ky)) kxs
      ++ newline_indent lvl ++ [125]
  end.

(** [json.dump(quotes, f, indent=2, ensure_ascii=False)]: the text written. *)
Definition json_dumps (v : value) : str := encode 0 v.

(** ** json.load *)

Inductive presult (A : Type) : Type :=
| POk (a : A)
| PErr          (* json.JSONDecodeError *)
| PUnsupported  (* a float or a lone surrogate: outside the model *)
| PFuel.        (* recursion bound reached; never with the bound of json_loads *)
Arguments POk {A} a.
Arguments PErr {A}.
Arguments PUnsupported {A}.
Arguments PFuel {A}.

Definition is_ws (c : char) : bool :=
  (c =? 32) || (c =? 9) || (c =? 10) || (c =? 13).

Fixpoint skip_ws (s : str) : str :=
  match s with
  | c :: s' => if is_ws c then skip_ws s' else s
  | [] => []
  end.

Definition is_digit (c : char) : bool := (48 <=? c) && (c <=? 57).

Fixpoint scan_digits (acc : N) (s : str) : N * str :=
  match s with
  | c :: s' => if is_digit c then scan_digits (10 * acc + (c - 48)) s'
               else (acc, s)
  | [] => (acc, [])
  end.

Fixpoint strip_prefix (p s : str) : option str :=
  match p, s with
  | [], _ => Some s
  | a :: p', b :: s' => if a =? b then strip_prefix p' s' else None
  | _ :: _, [] => None
  end.

Definition hexval (c : char) : option N :=
  if is_digit c then Some (c - 48)
  else if (97 <=? c) && (c <=? 102) then Some (c - 87)
  else if (65 <=? c) && (c <=? 70) then Some (c - 55)
  else None.

(** Four hexadecimal digits after a backslash and a [u]. *)
Definition decode_uXXXX (s : str) : option (N * str) :=
  match s with
  | h1 :: h2 :: h3 :: h4 :: r =>
      match hexval h1, hexval h2, hexval h3, hexval h4 with
      | Some a, Some b, Some c, Some d =>
          Some (((a * 16 + b) * 16 + c) * 16 + d, r)
      | _, _, _, _ => None
      end
  | _ => None
  end.

(** [BACKSLASH]: the one-letter escapes. *)
Definition unescape (e : char) : option char :=
  if e =? 34 then Some 34
  else if e =? 92 then Some 92
  else if e =? 47 then Some 47
  else if e =? 98 then Some 8
  else if e =? 102 then Some 12
  else if e =? 110 then Some 10
  else if e =? 114 then Some 13
  else if e =? 116 then Some 9
  else None.

(** [scanstring] with [strict=True]; [s] starts after the opening quote,
    [acc] holds the characters read so far, last first.  Two [\u] escapes
    that are a surrogate pair make one character; a surrogate that stays
    alone leaves the model. *)
Fixpoint scanstring (fuel : nat) (s : str) (acc : str) : presult (str * str) :=
  match fuel with
  | O => PFuel
  | S f =>
      match s with
      | [] => PErr
      | c :: s1 =>
          if c =? 34 then POk (rev acc, s1)
          else if c =? 92 then
            match s1 with
            | [] => PErr
            | e :: s2 =>
                if e =? 117 then
                  match decode_uXXXX s2 with
                  | None => PErr
                  | Some (uni, s3) =>
                      if is_high_surrogate uni then
                        match strip_prefix [92; 117] s3 with
                        | Some s4 =>
                            match decode_uXXXX s4 with
                            | None => PErr
                            | Some (uni2, s5) =>
                                if is_low_surrogate uni2 then
                                  scanstring f s5
                                    (65536 + ((uni - 55296) * 1024
                                              + (uni2 - 56320)) :: acc)
                                else PUnsupported
                            end
                        | None => PUnsupported
                        end
                      else if is_low_surrogate uni then PUnsupported
                      else scanstring f s3 (uni :: acc)
                  end
                else
                  match unescape e with
                  | Some c' => scanstring f s2 (c' :: acc)
                  | None => PErr
                  end
            end
          else if c <? 32 then PErr
          else scanstring f s1 (c :: acc)
      end
  end.

(** [NUMBER_RE]: an optional minus sign, then [0] or a non-zero digit and
    more digits; a fraction or an exponent after it makes the literal a
    float. *)
Definition int_part (s : str) : option (N * str) :=
  match s with
  | c :: s1 =>
      if c =? 48 then Some (0, s1)
      else if is_digit c then Some (scan_digits (c - 48) s1)
      else None
  | [] => None
  end.

Definition has_frac (s : str) : bool :=
  match s with
  | d :: c :: _ => (d =? 46) && is_digit c
  | _ => false
  end.

Definition has_exp (s : str) : bool :=
  match s with
  | e :: c :: r =>
      ((e =? 101) || (e =? 69))
      && (is_digit c
          || (((c =? 43) || (c =? 45))
              && match r with c' :: _ => is_digit c' | [] => false end))
  | _ => false
  end.

Definition strip_minus (s : str) : bool * str :=
  match s with
  | c :: r => if c =? 45 then (true, r) else (false, s)
  | [] => (false, s)
  end.

Definition match_number (s : str) : presult (Z * str) :=
  let (neg, s1) := strip_minus s in
  match int_part s1 with
  | None => PErr
  | Some (n, rest) =>
      if has_frac rest || has_exp rest then PUnsupported
      else POk (if neg then (- Z.of_N n)%Z else Z.of_N n, rest)
  end.

(** [dict(pairs)] *)
Definition dict_of_pairs (pairs : list (str * value)) : list (str * value) :=
  fold_left (fun d kv => dict_set d (fst kv) (snd kv)) pairs [].

Definition is_some {A : Type} (o : option A) : bool :=
  match o with Some _ => true | None => false end.

(** [scan_once], [JSONArray] and [JSONObject].  [array_items] starts at a
    value, [object_items] after the opening quote of a key. *)
Fixpoint scan_once (fuel : nat) (s : str) : presult (value * str) :=
  match fuel with
  | O => PFuel
  | S f =>
      match s with
      | [] => PErr
      | c :: s1 =>
          if c =? 34 then
            match scanstring f s1 [] with
            | POk (t, r) => POk (VStr t, r)
            | PErr => PErr
            | PUnsupported => PUnsupported
            | PFuel => PFuel
            end
          else if c =? 123 then
            match skip_ws s1 with
            | c' :: r =>
                if c' =? 125 then POk (VDict [], r)
                else if c' =? 34 then object_items f r []
                else PErr
            | [] => PErr
            end
          else if c =? 91 then
            match skip_ws s1 with
            | c' :: r =>
                if c' =? 93 then POk (VList [], r)
                else array_items f (c' :: r) []
            | [] => PErr
            end
          else
            match strip_prefix [110; 117; 108; 108] s with
            | Some r => POk (VNone, r)
            | None =>
            match strip_prefix [116; 114; 117; 101] s with
            | Some r => POk (VBool true, r)
            | None =>
            match strip_prefix [102; 97; 108; 115; 101] s with
            | Some r => POk (VBool false, r)
            | None =>
            match match_number s with
            | POk (z, r) => POk (VInt z, r)
            | PUnsupported => PUnsupported
            | PFuel => PFuel
            | PErr =>
                if is_some (strip_prefix [78; 97; 78] s)
                   || is_some (strip_prefix [73; 110; 102; 105; 110; 105;
                                             116; 121] s)
                   || is_some (strip_prefix [45; 73; 110; 102; 105; 110; 105;
                                             116; 121] s)
                then PUnsupported
                else PErr
            end end end end
      end
  end

with array_items (fuel : nat) (s : str) (acc : list value)
  : presult (value * str) :=
  match fuel with
  | O => PFuel
  | S f =>
      match scan_once f s with
      | POk (v, r) =>
          match skip_ws r with
          | c :: r' =>
              if c =? 93 then POk (VList (rev (v :: acc)), r')
              else if c =? 44 then array_items f (skip_ws r') (v :: acc)
              else PErr
          | [] => PErr
          end
      | PErr => PErr
      | PUnsupported => PUnsupported
      | PFuel => PFuel
      end
  end

with object_items (fuel : nat) (s : str) (acc : list (str * value))
  : presult (value * str) :=
  match fuel with
  | O => PFuel
  | S f =>
      match scanstring f s [] with
      | POk (k, r) =>
          match skip_ws r with
          | c :: r1 =>
              if c =? 58 then
                match scan_once f (skip_ws r1) with
                | POk (v, r2) =>
                    match skip_ws r2 with
                    | c' :: r3 =>
                        if c' =? 125 then
                          POk (VDict (dict_of_pairs (rev ((k, v) :: acc))), r3)
                        else if c' =? 44 then
                          match skip_ws r3 with
                          | q :: r4 =>
                              if q =? 34 then object_items f r4 ((k, v) :: acc)
                              else PErr
                          | [] => PErr
                          end
                        else PErr
                    | [] => PErr
                    end
                | PErr => PErr
                | PUnsupported => PUnsupported
                | PFuel => PFuel
                end
              else PErr
          | [] => PErr
          end
      | PErr => PErr
      | PUnsupported => PUnsupported
      | PFuel => PFuel
      end
  end.

(** [json.loads]: a leading byte order mark is refused, white space is
    allowed around the value, anything after it is "Extra data". *)
Definition has_bom (s : str) : bool :=
  match s with
  | c :: _ => c =? 65279
  | [] => false
  end.

Definition json_loads (s : str) : presult value :=
  if has_bom s then PErr
  else
    match scan_once (2 * length s + 2) (skip_ws s) with
    | POk (v, r) =>
        match skip_ws r with
        | [] => POk v
        | _ :: _ => PErr
        end
    | PErr => PErr
    | PUnsupported => PUnsupported
    | PFuel => PFuel
    end.

(** ** The world: file, console, random source *)

Inductive exn : Type :=
| DataError    (* KeyError, TypeError or AttributeError *)
| ValueError
| EOFError
| Abort        (* click.Abort *)
| Exit         (* typer.Exit(), exit code 0 *)
| UnicodeDecodeError
| Unmodelled.  (* a float or a lone surrogate has been met *)

Inductive result (A : Type) : Type :=
| Ok (a : A)
| Raise (e : exn).
Arguments Ok {A} a.
Arguments Raise {A} e.

Inductive game_mode : Type := Translate | Author | Work.

Inductive prompt_label : Type :=
| PLatinText | PEnglishTranslation | PAuthor | PWork | PNotes.

(** One constructor per [print], [input] or [typer.prompt] of the source;
    a formatted value is carried as the value. *)
Inductive event : Type :=
| NoQuotesFound
| Welcome
| RoundHeader (i num_rounds : Z)
| Question (mode : game_mode) (latin_text : value)
| AnswerPrompt
| Correct (answer : value)
| Incorrect (answer : value)
| GameOver
| FinalScore (score num_rounds : Z)
| AddBanner
| AddInstructions
| Prompt (label : prompt_label)
| QuoteAdded (id : Z)
| DatabaseEmpty
| ListHeader
| ListId (v : value)
| ListLatin (v : value)
| ListEnglish (v : value)
| ListAuthor (v : value)
| ListWork (v : value)
| ListNotes (v : value)
| ListFooter.

Record world : Type := mkWorld {
  file : option bytes;   (* quotes.json: absent, or its content *)
  stdin : list str;      (* the lines the user will type *)
  rng : list N;          (* the random tape *)
  stdout : list event    (* what has been printed, oldest first *)
}.

Definition M (A : Type) : Type := world -> result A * world.

Definition ret {A : Type} (a : A) : M A := fun w => (Ok a, w).

Definition raise {A : Type} (e : exn) : M A := fun w => (Raise e, w).

Definition bind {A B : Type} (c : M A) (k : A -> M B) : M B :=
  fun w =>
    match c w with
    | (Ok a, w') => k a w'
    | (Raise e, w') => (Raise e, w')
    end.

Definition lift {A : Type} (r : result A) : M A := fun w => (r, w).

Notation "x <- c1 ;; c2" := (bind c1 (fun x => c2))
  (at level 61, c1 at next level, right associativity).
Notation "c1 ;; c2" := (bind c1 (fun _ => c2))
  (at level 61, right associativity).

Definition print (e : event) : M unit :=
  fun w => (Ok tt, mkWorld (file w) (stdin w) (rng w) (stdout w ++ [e])).

(** [input(prompt)]: the prompt is written, then a line is read. *)
Definition input (prompt : event) : M str :=
  fun w =>
    match stdin w with
    | [] => (Raise EOFError,
             mkWorld (file w) [] (rng w) (stdout w ++ [prompt]))
    | l :: ls => (Ok l, mkWorld (file w) ls (rng w) (stdout w ++ [prompt]))
    end.

(** [typer.prompt(text)] without a default: asks again while the line is
    empty; the end of the input aborts. *)
Fixpoint prompt_lines (label : prompt_label) (lines : list str)
  (out : list event) : result str * list str * list event :=
  match lines with
  | [] => (Raise Abort, [], out ++ [Prompt label])
  | l :: ls =>
      match l with
      | [] => prompt_lines label ls (out ++ [Prompt label])
      | _ :: _ => (Ok l, ls, out ++ [Prompt label])
      end
  end.

Definition typer_prompt (label : prompt_label) : M str :=
  fun w =>
    match prompt_lines label (stdin w) (stdout w) with
    | (r, ls, out) => (r, mkWorld (file w) ls (rng w) out)
    end.

(** [random._randbelow(n)]: the next number of the tape, reduced below [n]. *)
Definition randbelow (n : N) : M N :=
  fun w =>
    match rng w with
    | [] => (Ok 0, w)
    | x :: t => (Ok (x mod n), mkWorld (file w) (stdin w) t (stdout w))
    end.

(** ** Operations on values *)

(** [len(x)] *)
Definition py_len (v : value) : result Z :=
  match v with
  | VStr s => Ok (Z.of_nat (length s))
  | VList l => Ok (Z.of_nat (length l))
  | VDict d => Ok (Z.of_nat (length d))
  | _ => Raise DataError
  end.

(** The items of [for x in v]. *)
Definition py_iter (v : value) : result (list value) :=
  match v with
  | VStr s => Ok (map (fun c => VStr [c]) s)
  | VList l => Ok l
  | VDict d => Ok (map (fun kv => VStr (fst kv)) d)
  | _ => Raise DataError
  end.

(** [v[k]] with a string key. *)
Definition subscript (v : value) (k : str) : result value :=
  match v with
  | VDict d =>
      match dict_get d k with
      | Some x => Ok x
      | None => Raise DataError
      end
  | _ => Raise DataError
  end.

(** [v.get(k, default)] *)
Definition py_get (v : value) (k : str) (default : value) : result value :=
  match v with
  | VDict d =>
      match dict_get d k with
      | Some x => Ok x
      | None => Ok default
      end
  | _ => Raise DataError
  end.

(** [quotes.append(x)] *)
Definition py_append (v : value) (x : value) : result value :=
  match v with
  | VList l => Ok (VList (l ++ [x]))
  | _ => Raise DataError
  end.

(** The receiver of [.strip()] has to be a string. *)
Definition as_str (v : value) : result str :=
  match v with
  | VStr s => Ok s
  | _ => Raise DataError
  end.

(** Integers and booleans are the values [max] compares as numbers and
    [+ 1] accepts; with any other id the expression of [get_next_id]
    raises. *)
Definition as_number (v : value) : result Z :=
  match v with
  | VInt z => Ok z
  | VBool b => Ok (if b then 1 else 0)%Z
  | _ => Raise DataError
  end.

(** [str.isspace] of one code point. *)
Definition is_space (c : char) : bool :=
  ((9 <=? c) && (c <=? 13)) || ((28 <=? c) && (c <=? 32))
  || (c =? 133) || (c =? 160) || (c =? 5760)
  || ((8192 <=? c) && (c <=? 8202))
  || (c =? 8232) || (c =? 8233) || (c =? 8239) || (c =? 8287)
  || (c =? 12288).

Fixpoint lstrip (s : str) : str :=
  match s with
  | c :: s' => if is_space c then lstrip s' else s
  | [] => []
  end.

(** [str.strip()] *)
Definition strip (s : str) : str := rev (lstrip (rev (lstrip s))).

(** [str.lower()] on ASCII text: the letters A to Z become a to z. *)
Definition ascii_lower_char (c : char) : char :=
  if (65 <=? c) && (c <=? 90) then c + 32 else c.

Definition ascii_lower (s : str) : str := map ascii_lower_char s.

Definition is_ascii (s : str) : Prop := Forall (fun c => c < 128) s.

(** [pool[j] = x]; the index is always in range where the code uses it. *)
Fixpoint list_set (j : nat) (x : value) (l : list value) : list value :=
  match l, j with
  | [], _ => []
  | _ :: t, O => x :: t
  | y :: t, S j' => y :: list_set j' x t
  end.

(** ** The store *)

(** [save_quotes]: the dump, encoded as UTF-8, replaces the file.  Only a
    value outside the model (a string with a lone surrogate) gives text
    the codec refuses. *)
Definition save_quotes (quotes : value) : M unit :=
  fun w =>
    match utf8_encode (json_dumps quotes) with
    | Some content =>
        (Ok tt, mkWorld (Some content) (stdin w) (rng w) (stdout w))
    | None => (Raise Unmodelled, w)
    end.

(** [load_quotes]: an absent file is created empty; the text of a file
    is decoded, then parsed, and [JSONDecodeError] alone is caught. *)
Definition load_quotes : M value :=
  fun w =>
    match file w with
    | None => (save_quotes (VList []) ;; ret (VList [])) w
    | Some content =>
        match utf8_decode content with
        | Some text =>
            match json_loads text with
            | POk v => (Ok v, w)
            | PErr => (Ok (VList []), w)
            | PUnsupported => (Raise Unmodelled, w)
            | PFuel => (Raise Unmodelled, w)
            end
        | None => (Raise UnicodeDecodeError, w)
        end
    end.

(** [q["id"] for q in quotes], as the numbers [max] is to compare. *)
Fixpoint ids_of (quotes : list value) : result (list Z) :=
  match quotes with
  | [] => Ok []
  | q :: qs =>
      match subscript q (u "id") with
      | Ok v =>
          match as_number v with
          | Ok z =>
              match ids_of qs with
              | Ok zs => Ok (z :: zs)
              | Raise e => Raise e
              end
          | Raise e => Raise e
          end
      | Raise e => Raise e
      end
  end.

(** [get_next_id]; [max(...) + 1] has a value exactly when every item has
    a numeric id. *)
Definition get_next_id (quotes : value) : result Z :=
  if negb (truthy quotes) then Ok 1%Z
  else
    match py_iter quotes with
    | Ok qs =>
        match ids_of qs with
        | Ok (z :: zs) => Ok (fold_left Z.max zs z + 1)%Z
        | Ok [] => Raise ValueError
        | Raise e => Raise e
        end
    | Raise e => Raise e
    end.

(** ** random.sample and random.choice *)

(** The loop of [random.sample] over the pool: [result[i] = pool[j]], then
    [pool[j] = pool[n - i - 1]]. *)
Fixpoint sample_loop (k : nat) (n i : nat) (pool : list value)
  : M (list value) :=
  match k with
  | O => ret []
  | S k' =>
      j <- randbelow (N.of_nat (n - i)) ;;
      let x := nth (N.to_nat j) pool VNone in
      let pool' := list_set (N.to_nat j) (nth (n - i - 1) pool VNone) pool in
      rest <- sample_loop k' n (S i) pool' ;;
      ret (x :: rest)
  end.

(** [random.sample(population, k)]: a sequence is required, then
    [0 <= k <= n], else [ValueError]. *)
Definition random_sample (population : value) (k : Z) : M (list value) :=
  match population with
  | VList _ | VStr _ =>
      match py_iter population with
      | Ok pool =>
          let n := length pool in
          if ((0 <=? k) && (k <=? Z.of_nat n))%Z
          then sample_loop (Z.to_nat k) n 0 pool
          else raise ValueError
      | Raise e => raise e
      end
  | _ => raise DataError
  end.

Definition game_modes : list game_mode := [Translate; Author; Work].

(** [random.choice(game_modes)] *)
Definition random_choice_mode : M game_mode :=
  j <- randbelow 3 ;;
  ret (nth (N.to_nat j) game_modes Work).

(** ** The commands *)

Section Game.

(** [str.lower()]: the Unicode table is the library's. *)
Variable lower : str -> str.

(** The comparison of line 106. *)
Definition answers_match (user_input answer : str) : bool :=
  str_eqb (lower (strip user_input)) (lower (strip answer)).

(** The body of the [for] loop of [play] over [enumerate(game_quotes)];
    [i] counts from 0. *)
Fixpoint play_rounds (game_quotes : list value) (i num_rounds score : Z)
  : M Z :=
  match game_quotes with
  | [] => ret score
  | quote :: rest =>
      print (RoundHeader (i + 1) num_rounds) ;;
      chosen_mode <- random_choice_mode ;;
      latin <- lift (subscript quote (u "latin_text")) ;;
      answer <- lift (subscript quote
                        match chosen_mode with
                        | Translate => u "english_translation"
                        | Author => u "author"
                        | Work => u "work"
                        end) ;;
      print (Question chosen_mode latin) ;;
      user_input <- input AnswerPrompt ;;
      a <- lift (as_str answer) ;;
      if answers_match user_input a
      then print (Correct answer) ;;
           play_rounds rest (i + 1) num_rounds (score + 1)%Z
      else print (Incorrect answer) ;;
           play_rounds rest (i + 1) num_rounds score
  end.

Definition play (rounds : Z) : M unit :=
  quotes <- load_quotes ;;
  if negb (truthy quotes)
  then print NoQuotesFound ;; raise Exit
  else
    print Welcome ;;
    len <- lift (py_len quotes) ;;
    let num_rounds := Z.min rounds len in
    game_quotes <- random_sample quotes num_rounds ;;
    score <- play_rounds game_quotes 0 num_rounds 0 ;;
    print GameOver ;;
    print (FinalScore score num_rounds).

End Game.

Definition add : M unit :=
  print AddBanner ;;
  print AddInstructions ;;
  latin_text <- typer_prompt PLatinText ;;
  english_translation <- typer_prompt PEnglishTranslation ;;
  author <- typer_prompt PAuthor ;;
  work <- typer_prompt PWork ;;
  notes <- typer_prompt PNotes ;;
  let new_quote :=
    [(u "latin_text", VStr latin_text);
     (u "english_translation", VStr english_translation);
     (u "author", VStr author);
     (u "work", VStr work);
     (u "notes", VStr notes)] in
  quotes <- load_quotes ;;
  id <- lift (get_next_id quotes) ;;
  let new_quote := dict_set new_quote (u "id") (VInt id) in
  quotes' <- lift (py_append quotes (VDict new_quote)) ;;
  save_quotes quotes' ;;
  print (QuoteAdded id).

Definition NA : value := VStr (u "N/A").

Definition list_quote (quote : value) : M unit :=
  id <- lift (subscript quote (u "id")) ;;
  print (ListId id) ;;
  latin <- lift (py_get quote (u "latin_text") NA) ;;
  print (ListLatin latin) ;;
  english <- lift (py_get quote (u "english_translation") NA) ;;
  print (ListEnglish english) ;;
  author <- lift (py_get quote (u "author") NA) ;;
  print (ListAuthor author) ;;
  work <- lift (py_get quote (u "work") NA) ;;
  print (ListWork work) ;;
  notes <- lift (py_get quote (u "notes") VNone) ;;
  if truthy notes
  then notes' <- lift (py_get quote (u "notes") VNone) ;;
       print (ListNotes notes')
  else ret tt.

Fixpoint list_loop (quotes : list value) : M unit :=
  match quotes with
  | [] => ret tt
  | quote :: rest => list_quote quote ;; list_loop rest
  end.

Definition list_quotes : M unit :=
  quotes <- load_quotes ;;
  if negb (truthy quotes)
  then print DatabaseEmpty
  else
    print ListHeader ;;
    qs <- lift (py_iter quotes) ;;
    list_loop qs ;;
    print ListFooter.

(** ** Well-formed values and collections *)

(** The values of the model: the keys of a dictionary are distinct, and
    strings hold no lone surrogate. *)
#[warnings="-register-all"]
Inductive wf_value : value -> Prop :=
| wf_none : wf_value VNone
| wf_bool b : wf_value (VBool b)
| wf_int z : wf_value (VInt z)
| wf_str s : scalar_text s -> wf_value (VStr s)
| wf_list l : Forall wf_value l -> wf_value (VList l)
| wf_dict d :
    NoDup (map fst d) ->
    Forall (fun kv => scalar_text (fst kv) /\ wf_value (snd kv)) d ->
    wf_value (VDict d).

(** Quote [q] is a dictionary whose [id] is the integer [z]. *)
Definition has_id (q : value) (z : Z) : Prop :=
  exists d, q = VDict d /\ dict_get d (u "id") = Some (VInt z).

(** What [load_quotes] hands to the commands, as a function of the file. *)
Definition collection_of (f : option bytes) : option value :=
  match f with
  | None => Some (VList [])
  | Some content =>
      match utf8_decode content with
      | Some text =>
          match json_loads text with
          | POk v => Some v
          | PErr => Some (VList [])
          | _ => None
          end
      | None => None
      end
  end.

(** The file after [load_quotes]: an absent file has been created. *)
Definition created (f : option bytes) : option bytes :=
  match f with
  | None => utf8_encode (json_dumps (VList []))
  | Some content => Some content
  end.

(** The bytes of ["caf\xe9"] with the last letter in Latin-1. *)
Definition latin1_file : bytes := [91; 34; 99; 97; 102; 233; 34; 93].

(** The file [save_quotes] writes for [v]. *)
Definition file_of (v : value) : option bytes := utf8_encode (json_dumps v).

(** The mode [random.choice] picks with the random tape [tape]. *)
Definition mode_of (tape : list N) : game_mode :=
  match tape with
  | [] => Translate
  | x :: _ => nth (N.to_nat (x mod 3)) game_modes Work
  end.

(** A quote [play] can ask about: it has a Latin text, and its
    translation, author and work are strings. *)
Definition playable (q : value) : Prop :=
  exists d latin en au wo,
    q = VDict d
    /\ dict_get d (u "latin_text") = Some latin
    /\ dict_get d (u "english_translation") = Some (VStr en)
    /\ dict_get d (u "author") = Some (VStr au)
    /\ dict_get d (u "work") = Some (VStr wo).

Definition latin_of (q : value) : value :=
  match subscript q (u "latin_text") with
  | Ok v => v
  | Raise _ => VNone
  end.

(** The Latin texts of the questions printed, in order. *)
Definition asked (out : list event) : list value :=
  flat_map (fun e => match e with
                     | Question _ latin => [latin]
                     | _ => []
                     end) out.

(** A quote [list] can print: a dictionary with an [id]. *)
Definition listable (q : value) : Prop :=
  exists d id, q = VDict d /\ dict_get d (u "id") = Some id.

(** What [list] is to print for one quote: the id, the four fields with
    "N/A" for a missing one, and the notes unless absent or empty. *)
Definition field_or_NA (d : list (str * value)) (k : str) : value :=
  match dict_get d k with
  | Some v => v
  | None => VStr (u "N/A")
  end.

Definition quote_lines (q : value) : list event :=
  match q with
  | VDict d =>
      [ListId (match dict_get d (u "id") with Some v => v | None => VNone end);
       ListLatin (field_or_NA d (u "latin_text"));
       ListEnglish (field_or_NA d (u "english_translation"));
       ListAuthor (field_or_NA d (u "author"));
       ListWork (field_or_NA d (u "work"))]
      ++ match dict_get d (u "notes") with
         | Some notes => if truthy notes then [ListNotes notes] else []
         | None => []
         end
  | _ => []
  end.

Definition listing (qs : list value) : list event :=
  match qs with
  | [] => [DatabaseEmpty]
  | _ :: _ => [ListHeader] ++ flat_map quote_lines qs ++ [ListFooter]
  end.

(** The computation never raises [ValueError]. *)
Definition no_value_error {A : Type} (c : M A) : Prop :=
  forall w, fst (c w) <> Raise ValueError.

(** The lines [typer.prompt] accepts: those that are not empty. *)
Definition answers (lines : list str) : list str :=
  filter (fun l => match l with [] => false | _ :: _ => true end) lines.

(** Two quotes, with macrons, for the examples. *)

Definition caesar : value :=
  VDict [(u "latin_text", VStr (u "V" ++ [275] ++ u "n" ++ [299]));
         (u "english_translation", VStr (u "I came"));
         (u "author", VStr (u "Caesar"));
         (u "work", VStr (u "Letter to the Senate"));
         (u "notes", VStr []);
         (u "id", VInt 1)].

Definition cicero : value :=
  VDict [(u "latin_text", VStr (u "O tempora, o m" ++ [333] ++ u "res"));
         (u "english_translation", VStr (u "Oh the times, oh the customs"));
         (u "author", VStr (u "Cicero"));
         (u "work", VStr (u "In Catilinam"));
         (u "notes", VStr (u "First oration"));
         (u "id", VInt 2)].

Definition example_quotes : value := VList [caesar; cicero].

(** The file holds the two quotes; the user answers the five prompts of
    [add], leaving the second one empty once. *)
Definition add_world : world :=
  mkWorld (file_of example_quotes)
    [u "Alea iacta est"; []; u "The die is cast"; u "Caesar";
     u "Suetonius, Divus Iulius"; u "crossing the Rubicon"]
    [] [].

(** The file holds the two quotes; the user types two answers. *)
Definition play_world : world :=
  mkWorld (file_of example_quotes)
    [u "caesar"; u " Cicero "] [3; 1; 0; 2] [].

(** The file holds a complete quote and one that has only an id. *)
Definition list_world : world :=
  mkWorld (file_of (VList [caesar; VDict [(u "id", VInt 9)]]))
    [] [] [].

(** ** Stored quotes, transcripts, untouched parts of the world *)

(** The bytes EF BB BF some editors put in front of a UTF-8 file. *)
Definition byte_order_mark : bytes := [239; 187; 191].

(** The dictionary [add] builds: the five answers in the order of the
    prompts, then the id. *)
Definition new_quote (latin_text english_translation author work notes : str)
  (id : Z) : value :=
  VDict [(u "latin_text", VStr latin_text);
         (u "english_translation", VStr english_translation);
         (u "author", VStr author);
         (u "work", VStr work);
         (u "notes", VStr notes);
         (u "id", VInt id)].

(** A quote whose id [max] and [+ 1] accept. *)
Definition numeric_id (q : value) : Prop :=
  exists d v z,
    q = VDict d /\ dict_get d (u "id") = Some v /\ as_number v = Ok z.

(** Text [str.strip] removes entirely. *)
Definition whitespace (s : str) : Prop :=
  Forall (fun c => is_space c = true) s.

(** The verdicts and the round headers of a transcript. *)
Definition is_correct (e : event) : bool :=
  match e with Correct _ => true | _ => false end.

Definition is_incorrect (e : event) : bool :=
  match e with Incorrect _ => true | _ => false end.

Definition is_round_header (e : event) : bool :=
  match e with RoundHeader _ _ => true | _ => false end.

Definition count (p : event -> bool) (out : list event) : nat :=
  length (filter p out).

(** The headers of rounds [i + 1] to [i + k] of a session of [n] rounds. *)
Definition headers_from (i : Z) (k : nat) (n : Z) : list event :=
  map (fun j => RoundHeader (i + Z.of_nat j) n) (seq 1 k).

(** The computation leaves a component of the world as it was, whether it
    returns or raises. *)
Definition preserves {A B : Type} (proj : world -> B) (c : M A) : Prop :=
  forall w, proj (snd (c w)) = proj w.

(** The file holds the two quotes; the user answers the prompts of two
    runs of [add]. *)
Definition two_adds_world : world :=
  mkWorld (file_of example_quotes)
    [u "Alea iacta est"; u "The die is cast"; u "Caesar"; u "Suetonius";
     u "Rubicon";
     u "Carpe diem"; u "Seize the day"; u "Horace"; u "Odes"; u "1.11"]
    [] [].

(** [add] run [n] times in a row. *)
Fixpoint add_runs (n : nat) : M unit :=
  match n with
  | O => ret tt
  | S k => add ;; add_runs k
  end.

(** The file holds the two quotes; the user answers the prompts of [add],
    then three questions of [play]. *)
Definition add_play_world : world :=
  mkWorld (file_of example_quotes)
    [u "Alea iacta est"; u "The die is cast"; u "Caesar"; u "Suetonius";
     u "Rubicon"; u "caesar"; u "cicero"; u "suetonius"]
    [2; 7; 1; 8] [].

(** ** Vocabulary of the proofs *)

Create HintDb scalar.

(** A numeral is read back when the next character cannot continue it. *)
Definition follow_ok (rest : str) : Prop :=
  match rest with
  | [] => True
  | c :: _ => c = 44 \/ c = 10
  end.

(** The characters an encoded value can start with. *)
Definition value_start (c : char) : bool :=
  (c =? 34) || (c =? 45) || is_digit c || (c =? 91) || (c =? 102)
  || (c =? 110) || (c =? 116) || (c =? 123).

(** [v] is read back at every nesting level and before every continuation
    that starts with a comma or a newline. *)
Definition decodes (v : value) : Prop :=
  forall f lvl rest,
    follow_ok rest ->
    (2 * length (encode lvl v ++ rest) < f)%nat ->
    scan_once f (encode lvl v ++ rest) = POk (v, rest).

Definition list_items (lvl : nat) (xs : list value) : str :=
  flat_map (fun y => [44] ++ newline_indent (S lvl) ++ encode (S lvl) y) xs.

Definition dict_items (lvl : nat) (kxs : list (str * value)) : str :=
  flat_map (fun ky => [44] ++ newline_indent (S lvl)
              ++ encode_basestring (fst ky) ++ [58; 32]
              ++ encode (S lvl) (snd ky)) kxs.

Ltac len_lia := unfold str, char in *; lia.

(** Settles the comparisons of a goal that linear arithmetic decides. *)
Ltac utf8_tests :=
  repeat match goal with
         | |- context [?a <? ?b] =>
             first [ replace (a <? b) with true
                       by (symmetry; apply N.ltb_lt; lia)
                   | replace (a <? b) with false
                       by (symmetry; apply N.ltb_ge; lia) ]
         | |- context [?a <=? ?b] =>
             first [ replace (a <=? b) with true
                       by (symmetry; apply N.leb_le; lia)
                   | replace (a <=? b) with false
                       by (symmetry; apply N.leb_gt; lia) ]
         | |- context [?a =? ?b] =>
             first [ replace (a =? b) with true
                       by (symmetry; apply N.eqb_eq; lia)
                   | replace (a =? b) with false
                       by (symmetry; apply N.eqb_neq; lia) ]
         end.

Ltac len_norm :=
  repeat first [ rewrite !length_app in *
               | progress cbn [length] in * ];
  len_lia.

Definition scan_once_total (f : nat) : Prop :=
  forall s,
    ((2 * length s < f)%nat -> scan_once f s <> PFuel)
    /\ (forall v r, scan_once f s = POk (v, r) -> (length r < length s)%nat).

Definition array_items_total (f : nat) : Prop :=
  forall s acc,
    ((2 * length s + 1 < f)%nat -> array_items f s acc <> PFuel)
    /\ (forall v r, array_items f s acc = POk (v, r) ->
                    (length r < length s)%nat).

Definition object_items_total (f : nat) : Prop :=
  forall s acc,
    ((2 * length s + 1 < f)%nat -> object_items f s acc <> PFuel)
    /\ (forall v r, object_items f s acc = POk (v, r) ->
                    (length r < length s)%nat).

Ltac wf_tac :=
  cbn;
  repeat first
    [ apply wf_none | apply wf_bool | apply wf_int | apply wf_str
    | apply wf_list | apply wf_dict
    | apply Forall_nil | apply Forall_cons
    | apply NoDup_nil
    | apply NoDup_cons; [cbn; intuition discriminate|]
    | split
    | reflexivity ].

Definition wf_pair (kv : str * value) : Prop :=
  scalar_text (fst kv) /\ wf_value (snd kv).

Definition scan_once_wf (f : nat) : Prop :=
  forall s v r,
    scalar_text s -> scan_once f s = POk (v, r) ->
    wf_value v /\ scalar_text r.

Definition array_items_wf (f : nat) : Prop :=
  forall s acc v r,
    scalar_text s -> Forall wf_value acc ->
    array_items f s acc = POk (v, r) ->
    wf_value v /\ scalar_text r.

Definition object_items_wf (f : nat) : Prop :=
  forall s acc v r,
    scalar_text s -> Forall wf_pair acc ->
    object_items f s acc = POk (v, r) ->
    wf_value v /\ scalar_text r.

(** One prompt of [add] in a goal about a run that lacks answers, with
    the lemma [cases] on the prompt: the abort closes the goal, an answer
    goes on with one answer less. *)
Ltac prompt_step cases Hlt E Er :=
  match goal with
  | |- context [typer_prompt ?label ?w1] =>
      let extra := fresh "extra" in
      let a := fresh "a" in
      let rest := fresh "rest" in
      let ls := fresh "ls" in
      destruct (cases label w1)
        as [(E & extra & ->) | (a & rest & ls & extra & E & -> & Er)];
      cbn [file stdin rng stdout] in *;
      [ eexists; rewrite <- !app_assoc; reflexivity
      | rewrite E in Hlt; cbn [length] in Hlt; rewrite <- Er in Hlt ]
  end.

(** One prompt of [add] in a goal about a run that fails, with the lemma
    [keeps] that the prompt keeps the file. *)
Ltac prompt_frame keeps :=
  match goal with
  | |- context [typer_prompt ?label ?w1] =>
      let r := fresh "r" in
      let w2 := fresh "w" in
      let E := fresh "E" in
      let Hf := fresh "Hf" in
      pose proof (proj1 (keeps label) w1) as Hf;
      destruct (typer_prompt label w1) as [[r|r] w2] eqn:E;
      cbn [snd file stdin rng stdout] in Hf;
      [| let H := fresh in intros H; inversion H; subst; congruence ]
  end.

(** * Properties *)

(** ** Induction on values *)

Lemma value_ind (P : value -> Prop)
  (HNone : P VNone)
  (HBool : forall b, P (VBool b))
  (HInt : forall z, P (VInt z))
  (HStr : forall s, P (VStr s))
  (HList : forall l, Forall P l -> P (VList l))
  (HDict : forall d, Forall (fun kv => P (snd kv)) d -> P (VDict d)) :
  forall v, P v.
Proof.
  fix IH 1. intros [ | b | z | s | l | d ].
  - exact HNone.
  - apply HBool.
  - apply HInt.
  - apply HStr.
  - apply HList. induction l as [|x l IHl]; constructor; [apply IH | exact IHl].
  - apply HDict.
    induction d as [|[k x] d IHd]; constructor; [apply IH | exact IHd].
Qed.

(** ** Dictionaries *)

Lemma str_eqb_eq a b : str_eqb a b = true <-> a = b.
Proof.
  unfold str_eqb. destruct (list_eq_dec N.eq_dec a b); split; congruence.
Qed.

Lemma str_eqb_refl a : str_eqb a a = true.
Proof. apply str_eqb_eq. reflexivity. Qed.

Lemma str_eqb_neq a b : a <> b -> str_eqb a b = false.
Proof.
  unfold str_eqb. destruct (list_eq_dec N.eq_dec a b); congruence.
Qed.

Lemma dict_set_fresh d k v :
  ~ In k (map fst d) -> dict_set d k v = d ++ [(k, v)].
Proof.
  induction d as [|[k' v'] d IH]; simpl; intros H.
  - reflexivity.
  - rewrite str_eqb_neq by (intros ->; apply H; now left).
    rewrite IH by (intros Hin; apply H; now right). reflexivity.
Qed.

Lemma dict_of_pairs_acc d : forall acc,
  NoDup (map fst (acc ++ d)) ->
  fold_left (fun a kv => dict_set a (fst kv) (snd kv)) d acc = acc ++ d.
Proof.
  induction d as [|[k v] d IH]; intros acc H; simpl.
  - now rewrite app_nil_r.
  - rewrite dict_set_fresh.
    + rewrite IH; rewrite <- app_assoc; [reflexivity | exact H].
    + rewrite map_app in H. simpl in H.
      apply NoDup_remove_2 in H. intros Hin. apply H.
      apply in_or_app. now left.
Qed.

Lemma dict_of_pairs_nodup d : NoDup (map fst d) -> dict_of_pairs d = d.
Proof. intros H. unfold dict_of_pairs. now rewrite dict_of_pairs_acc. Qed.

(** ** Decimal numerals *)

Lemma is_digit_48 n : n < 10 -> is_digit (48 + n) = true.
Proof.
  intros H. unfold is_digit. apply andb_true_intro.
  split; apply N.leb_le; lia.
Qed.

Lemma scan_digits_cons a c s :
  is_digit c = true -> scan_digits a (c :: s) = scan_digits (10 * a + (c - 48)) s.
Proof. intros H. cbn [scan_digits]. now rewrite H. Qed.

Lemma div10_lt n f : n < 2 ^ N.of_nat (S f) -> n / 10 < 2 ^ N.of_nat f.
Proof.
  rewrite Nat2N.inj_succ, N.pow_succ_r'. intros Hn.
  apply N.Div0.div_lt_upper_bound. lia.
Qed.

Lemma scan_digits_digits_aux fuel : forall n acc rest,
  n < 2 ^ N.of_nat fuel ->
  scan_digits 0 (digits_aux fuel n acc ++ rest) = scan_digits n (acc ++ rest).
Proof.
  induction fuel as [|f IH]; intros n acc rest Hn.
  - cbn in Hn. assert (n = 0) by lia. subst. reflexivity.
  - cbn [digits_aux]. destruct (N.ltb_spec n 10) as [Hlt|Hge].
    + rewrite <- app_comm_cons, scan_digits_cons by now apply is_digit_48.
      f_equal. lia.
    + rewrite IH by now apply div10_lt.
      assert (n mod 10 < 10) by (apply N.mod_lt; lia).
      rewrite <- app_comm_cons, scan_digits_cons by now apply is_digit_48.
      f_equal. clear. pose proof (N.div_mod n 10 ltac:(lia)) as E.
      revert E. generalize (n mod 10), (n / 10). intros; lia.
Qed.

Lemma digits_aux_head fuel : forall n acc,
  0 < n -> n < 2 ^ N.of_nat fuel ->
  exists c tl, digits_aux fuel n acc = c :: tl /\ 49 <= c <= 57.
Proof.
  induction fuel as [|f IH]; intros n acc Hpos Hn.
  - cbn in Hn. lia.
  - cbn [digits_aux]. destruct (N.ltb_spec n 10) as [Hlt|Hge].
    + exists (48 + n), acc. split; [reflexivity | lia].
    + apply IH; [apply N.div_str_pos; lia | now apply div10_lt].
Qed.

Lemma digits_fuel n : n < 2 ^ N.of_nat (S (N.to_nat (N.size n))).
Proof.
  rewrite Nat2N.inj_succ, N2Nat.id, N.pow_succ_r'.
  pose proof (N.size_gt n). lia.
Qed.

Lemma follow_ok_scan n rest :
  follow_ok rest -> scan_digits n rest = (n, rest).
Proof.
  destruct rest as [|c r]; [reflexivity|].
  intros [-> | ->]; reflexivity.
Qed.

Lemma follow_ok_float rest :
  follow_ok rest -> has_frac rest || has_exp rest = false.
Proof.
  destruct rest as [|c [|c' r]]; try reflexivity;
    intros [-> | ->]; reflexivity.
Qed.

Lemma int_part_digits n rest :
  follow_ok rest -> int_part (digits n ++ rest) = Some (n, rest).
Proof.
  intros Hf. destruct (N.eq_dec n 0) as [-> | Hn].
  - reflexivity.
  - destruct (digits_aux_head (S (N.to_nat (N.size n))) n [])
      as (c & tl & Hd & Hc); [lia | apply digits_fuel |].
    pose proof (scan_digits_digits_aux _ n [] rest (digits_fuel n)) as Hs.
    fold (digits n) in Hd, Hs. rewrite Hd in *.
    assert (Hc' : is_digit c = true).
    { unfold is_digit. apply andb_true_intro. split; apply N.leb_le; lia. }
    rewrite <- app_comm_cons in *. rewrite scan_digits_cons in Hs by exact Hc'.
    unfold int_part. rewrite Hc'.
    replace (c =? 48) with false by (symmetry; apply N.eqb_neq; lia).
    rewrite N.mul_0_r, N.add_0_l in Hs. rewrite Hs.
    cbn [app]. now rewrite follow_ok_scan.
Qed.

Lemma digits_head n :
  exists c tl, digits n = c :: tl /\ 48 <= c <= 57.
Proof.
  destruct (N.eq_dec n 0) as [-> | Hn].
  - exists 48, []. split; [reflexivity | lia].
  - destruct (digits_aux_head (S (N.to_nat (N.size n))) n [])
      as (c & tl & Hd & Hc); [lia | apply digits_fuel |].
    exists c, tl. split; [exact Hd | lia].
Qed.

Lemma match_number_intstr z rest :
  follow_ok rest -> match_number (intstr z ++ rest) = POk (z, rest).
Proof.
  intros Hf. destruct z as [|p|p]; unfold intstr.
  - cbn. now rewrite follow_ok_float.
  - destruct (digits_head (Z.to_N (Z.pos p))) as (c & tl & Hd & Hc).
    unfold match_number.
    assert (Hs : strip_minus (digits (Z.to_N (Z.pos p)) ++ rest)
                 = (false, digits (Z.to_N (Z.pos p)) ++ rest)).
    { rewrite Hd. cbn [app strip_minus].
      now replace (c =? 45) with false by (symmetry; apply N.eqb_neq; lia). }
    rewrite Hs, int_part_digits, follow_ok_float by exact Hf.
    f_equal.
  - unfold match_number. cbn [app strip_minus]. rewrite N.eqb_refl.
    rewrite int_part_digits, follow_ok_float by exact Hf.
    f_equal.
Qed.

(** ** Strings *)

Lemma scanstring_escape c f s acc :
  scanstring (S f) (escape_char c ++ s) acc = scanstring f s (c :: acc).
Proof.
  destruct (N.ltb_spec c 32) as [Hlt|Hge].
  - destruct c as [|p]; [reflexivity|].
    do 5 (try destruct p as [p|p|]); try reflexivity; exfalso; lia.
  - unfold escape_char.
    destruct (N.eqb_spec c 34) as [->|H34]; [reflexivity|].
    destruct (N.eqb_spec c 92) as [->|H92]; [reflexivity|].
    repeat match goal with
           | |- context [c =? ?k] =>
               replace (c =? k) with false by (symmetry; apply N.eqb_neq; lia)
           end.
    replace (c <? 32) with false by (symmetry; apply N.ltb_ge; lia).
    cbn [app scanstring].
    replace (c =? 34) with false by (symmetry; apply N.eqb_neq; lia).
    replace (c =? 92) with false by (symmetry; apply N.eqb_neq; lia).
    replace (c <? 32) with false by (symmetry; apply N.ltb_ge; lia).
    reflexivity.
Qed.

Lemma escape_char_length c : (1 <= length (escape_char c))%nat.
Proof.
  unfold escape_char.
  repeat match goal with
         | |- context [if ?b then _ else _] => destruct b
         end; cbn; lia.
Qed.

Lemma flat_map_escape_length s :
  (length s <= length (flat_map escape_char s))%nat.
Proof.
  induction s as [|c s IH]; cbn [flat_map length]; [lia|].
  rewrite length_app. pose proof (escape_char_length c). lia.
Qed.

Lemma scanstring_body s : forall f acc rest,
  (length s < f)%nat ->
  scanstring f (flat_map escape_char s ++ 34 :: rest) acc
  = POk (rev acc ++ s, rest).
Proof.
  induction s as [|c s IH]; intros f acc rest Hf;
    (destruct f as [|f]; [cbn in Hf; lia|]).
  - cbn. now rewrite app_nil_r.
  - cbn [flat_map]. rewrite <- app_assoc, scanstring_escape.
    rewrite IH by (cbn in Hf; lia).
    cbn [rev]. now rewrite <- app_assoc.
Qed.

Lemma scanstring_basestring s f rest :
  (length (encode_basestring s ++ rest) <= f)%nat ->
  exists tl, encode_basestring s ++ rest = 34 :: tl
             /\ scanstring f tl [] = POk (s, rest).
Proof.
  unfold encode_basestring. intros Hf.
  exists (flat_map escape_char s ++ 34 :: rest). split.
  - cbn [app]. now rewrite <- app_assoc.
  - apply scanstring_body.
    cbn [app length] in Hf. rewrite !length_app in Hf.
    pose proof (flat_map_escape_length s). lia.
Qed.

(** ** The decoder reads back what the encoder writes *)

Lemma intstr_head z :
  exists c tl, intstr z = c :: tl /\ (c = 45 \/ 48 <= c <= 57).
Proof.
  destruct z as [|p|p]; unfold intstr.
  - exists 48, []. split; [reflexivity | lia].
  - destruct (digits_head (Z.to_N (Z.pos p))) as (c & tl & Hd & Hc).
    exists c, tl. split; [exact Hd | now right].
  - eexists 45, _. split; [reflexivity | now left].
Qed.

Lemma encode_head lvl v :
  exists c tl, encode lvl v = c :: tl /\ value_start c = true.
Proof.
  destruct v as [ | [|] | z | s | [|x xs] | [|[k x] kxs] ];
    try (eexists _, _; split; [reflexivity | reflexivity]).
  destruct (intstr_head z) as (c & tl & Hd & Hc).
  exists c, tl. split; [exact Hd|].
  unfold value_start, is_digit. destruct Hc as [-> | Hc]; [reflexivity|].
  replace (48 <=? c) with true by (symmetry; apply N.leb_le; lia).
  replace (c <=? 57) with true by (symmetry; apply N.leb_le; lia).
  cbn. now rewrite !orb_true_r.
Qed.

Lemma value_start_cases c :
  value_start c = true ->
  c = 34 \/ c = 45 \/ 48 <= c <= 57 \/ c = 91 \/ c = 102 \/ c = 110
  \/ c = 116 \/ c = 123.
Proof.
  unfold value_start, is_digit. intros H.
  repeat (apply orb_true_iff in H; destruct H as [H|H]);
    try (apply N.eqb_eq in H; lia).
  apply andb_true_iff in H. destruct H as [H1 H2].
  apply N.leb_le in H1. apply N.leb_le in H2. lia.
Qed.

Lemma value_start_not_ws c : value_start c = true -> is_ws c = false.
Proof.
  intros H. apply value_start_cases in H. unfold is_ws.
  repeat (apply orb_false_iff; split); apply N.eqb_neq; lia.
Qed.

Lemma skip_ws_repeat n s : skip_ws (repeat 32 n ++ s) = skip_ws s.
Proof. induction n as [|n IH]; [reflexivity | exact IH]. Qed.

Lemma skip_ws_indent lvl c s :
  is_ws c = false -> skip_ws (newline_indent lvl ++ c :: s) = c :: s.
Proof.
  intros H. unfold newline_indent. cbn [app skip_ws is_ws N.eqb orb].
  change (skip_ws (repeat 32 (2 * lvl) ++ c :: s) = c :: s).
  rewrite skip_ws_repeat. cbn [skip_ws]. now rewrite H.
Qed.

Lemma skip_ws_encode lvl lvl' v s :
  skip_ws (newline_indent lvl ++ encode lvl' v ++ s) = encode lvl' v ++ s.
Proof.
  destruct (encode_head lvl' v) as (c & tl & -> & Hc).
  cbn [app]. apply skip_ws_indent. now apply value_start_not_ws.
Qed.

Lemma scan_once_string f s1 :
  scan_once (S f) (34 :: s1)
  = match scanstring f s1 [] with
    | POk (t, r) => POk (VStr t, r)
    | PErr => PErr
    | PUnsupported => PUnsupported
    | PFuel => PFuel
    end.
Proof. reflexivity. Qed.

Lemma scan_once_array f s1 :
  scan_once (S f) (91 :: s1)
  = match skip_ws s1 with
    | c' :: r =>
        if c' =? 93 then POk (VList [], r) else array_items f (c' :: r) []
    | [] => PErr
    end.
Proof. reflexivity. Qed.

Lemma scan_once_object f s1 :
  scan_once (S f) (123 :: s1)
  = match skip_ws s1 with
    | c' :: r =>
        if c' =? 125 then POk (VDict [], r)
        else if c' =? 34 then object_items f r []
        else PErr
    | [] => PErr
    end.
Proof. reflexivity. Qed.

Lemma scan_once_number f c tl :
  c = 45 \/ 48 <= c <= 57 ->
  scan_once (S f) (c :: tl)
  = match match_number (c :: tl) with
    | POk (z, r) => POk (VInt z, r)
    | PUnsupported => PUnsupported
    | PFuel => PFuel
    | PErr =>
        if is_some (strip_prefix [78; 97; 78] (c :: tl))
           || is_some (strip_prefix [73; 110; 102; 105; 110; 105; 116; 121]
                         (c :: tl))
           || is_some (strip_prefix [45; 73; 110; 102; 105; 110; 105; 116;
                                     121] (c :: tl))
        then PUnsupported
        else PErr
    end.
Proof.
  intros Hc. cbn [scan_once strip_prefix].
  replace (c =? 34) with false by (symmetry; apply N.eqb_neq; lia).
  replace (c =? 123) with false by (symmetry; apply N.eqb_neq; lia).
  replace (c =? 91) with false by (symmetry; apply N.eqb_neq; lia).
  replace (110 =? c) with false by (symmetry; apply N.eqb_neq; lia).
  replace (116 =? c) with false by (symmetry; apply N.eqb_neq; lia).
  replace (102 =? c) with false by (symmetry; apply N.eqb_neq; lia).
  reflexivity.
Qed.

Lemma array_items_eq f s acc :
  array_items (S f) s acc
  = match scan_once f s with
    | POk (v, r) =>
        match skip_ws r with
        | c :: r' =>
            if c =? 93 then POk (VList (rev (v :: acc)), r')
            else if c =? 44 then array_items f (skip_ws r') (v :: acc)
            else PErr
        | [] => PErr
        end
    | PErr => PErr
    | PUnsupported => PUnsupported
    | PFuel => PFuel
    end.
Proof. reflexivity. Qed.

Lemma object_items_eq f s acc :
  object_items (S f) s acc
  = match scanstring f s [] with
    | POk (k, r) =>
        match skip_ws r with
        | c :: r1 =>
            if c =? 58 then
              match scan_once f (skip_ws r1) with
              | POk (v, r2) =>
                  match skip_ws r2 with
                  | c' :: r3 =>
                      if c' =? 125 then
                        POk (VDict (dict_of_pairs (rev ((k, v) :: acc))), r3)
                      else if c' =? 44 then
                        match skip_ws r3 with
                        | q :: r4 =>
                            if q =? 34 then object_items f r4 ((k, v) :: acc)
                            else PErr
                        | [] => PErr
                        end
                      else PErr
                  | [] => PErr
                  end
              | PErr => PErr
              | PUnsupported => PUnsupported
              | PFuel => PFuel
              end
            else PErr
        | [] => PErr
        end
    | PErr => PErr
    | PUnsupported => PUnsupported
    | PFuel => PFuel
    end.
Proof. reflexivity. Qed.

Lemma follow_ok_indent lvl s : follow_ok (newline_indent lvl ++ s).
Proof. cbn. now right. Qed.

Lemma array_items_ok lvl rest xs :
  Forall decodes xs ->
  forall x f acc,
    decodes x ->
    (2 * length (encode (S lvl) x ++ list_items lvl xs
                 ++ newline_indent lvl ++ 93%N :: rest) + 1 < f)%nat ->
    array_items f (encode (S lvl) x ++ list_items lvl xs
                   ++ newline_indent lvl ++ 93 :: rest) acc
    = POk (VList (rev acc ++ x :: xs), rest).
Proof.
  induction 1 as [|y ys Hy Hys IH]; intros x f acc Hx Hf;
    (destruct f as [|f]; [lia|]); rewrite array_items_eq.
  - cbn [list_items flat_map app] in *.
    rewrite Hx; [| apply follow_ok_indent | len_lia].
    rewrite skip_ws_indent by reflexivity.
    cbn [N.eqb Pos.eqb rev]. reflexivity.
  - cbn [list_items flat_map] in *. fold (list_items lvl ys) in *.
    rewrite <- !app_assoc in *. cbn [app] in Hf |- *.
    rewrite Hx; [| now left | len_lia].
    cbn [skip_ws is_ws N.eqb Pos.eqb orb].
    rewrite skip_ws_encode.
    rewrite IH; [cbn [rev]; now rewrite <- app_assoc | exact Hy |].
    len_norm.
Qed.

Lemma skip_ws_value lvl v s : skip_ws (encode lvl v ++ s) = encode lvl v ++ s.
Proof.
  destruct (encode_head lvl v) as (c & tl & -> & Hc).
  cbn [app skip_ws]. now rewrite value_start_not_ws.
Qed.

Lemma object_items_ok lvl rest kxs :
  Forall (fun kv => decodes (snd kv)) kxs ->
  forall k x f acc,
    decodes x ->
    (2 * length (flat_map escape_char k ++ 34%N :: 58%N :: 32%N
                 :: encode (S lvl) x ++ dict_items lvl kxs
                 ++ newline_indent lvl ++ 125%N :: rest) + 1 < f)%nat ->
    object_items f (flat_map escape_char k ++ 34 :: 58 :: 32
                    :: encode (S lvl) x ++ dict_items lvl kxs
                    ++ newline_indent lvl ++ 125 :: rest) acc
    = POk (VDict (dict_of_pairs (rev acc ++ (k, x) :: kxs)), rest).
Proof.
  induction 1 as [|[k' y] ys Hy Hys IH]; intros k x f acc Hx Hf;
    (destruct f as [|f]; [lia|]); rewrite object_items_eq;
    (rewrite scanstring_body
      by (pose proof (flat_map_escape_length k); len_norm));
    cbn [rev app skip_ws is_ws N.eqb Pos.eqb orb];
    rewrite skip_ws_value.
  - cbn [dict_items flat_map app] in *.
    rewrite Hx; [| apply follow_ok_indent | len_norm].
    rewrite skip_ws_indent by reflexivity.
    cbn [N.eqb Pos.eqb rev]. reflexivity.
  - cbn [dict_items flat_map fst snd] in *. fold (dict_items lvl ys) in *.
    unfold encode_basestring in *.
    rewrite <- !app_assoc in *. cbn [app] in Hf |- *.
    rewrite Hx; [| now left | len_norm].
    cbn [skip_ws is_ws N.eqb Pos.eqb orb].
    rewrite skip_ws_indent by reflexivity.
    cbn [N.eqb Pos.eqb].
    rewrite IH; [cbn [rev]; now rewrite <- app_assoc | exact Hy |].
    len_norm.
Qed.

Lemma wf_value_decodes v : wf_value v -> decodes v.
Proof.
  induction v as [ | b | z | s | l IH | d IH ] using value_ind;
    intros Hwf f lvl rest Hrest Hf;
    (destruct f as [|f]; [lia|]).
  - reflexivity.
  - destruct b; reflexivity.
  - cbn [encode] in *.
    destruct (intstr_head z) as (c & tl & Hd & Hc).
    pose proof (match_number_intstr z rest Hrest) as Hm.
    rewrite Hd in *. cbn [app] in *.
    rewrite scan_once_number by exact Hc.
    unfold str, char in *. now rewrite Hm.
  - cbn [encode] in *.
    destruct (scanstring_basestring s f rest) as (tl & -> & Hs);
      [len_lia|].
    now rewrite scan_once_string, Hs.
  - inversion Hwf as [ | | | | l' Hl | ]; subst.
    assert (Hdec : Forall decodes l).
    { clear - IH Hl. induction IH; inversion Hl; subst; constructor; auto. }
    destruct l as [|x xs]; [reflexivity|].
    inversion Hdec as [|? ? Hx Hxs]; subst.
    cbn [encode] in *. fold (list_items lvl xs) in *.
    rewrite <- !app_assoc in *. cbn [app] in Hf |- *.
    rewrite scan_once_array, skip_ws_encode.
    destruct (encode_head (S lvl) x) as (c & tl & Hd & Hc).
    pose proof (array_items_ok lvl rest xs Hxs x f [] Hx) as Ha.
    rewrite Hd in *. cbn [app] in *.
    replace (c =? 93) with false
      by (symmetry; apply N.eqb_neq; apply value_start_cases in Hc; lia).
    apply Ha. len_norm.
  - inversion Hwf as [ | | | | | d' Hnd Hd ]; subst.
    assert (Hdec : Forall (fun kv => decodes (snd kv)) d).
    { clear - IH Hd.
      induction IH; inversion Hd as [|? ? [? ?] ?]; subst; constructor; auto. }
    destruct d as [|[k x] kxs]; [reflexivity|].
    inversion Hdec as [|? ? Hx Hxs]; subst. cbn [snd] in Hx.
    cbn [encode] in *. fold (dict_items lvl kxs) in *.
    unfold encode_basestring in *.
    rewrite <- !app_assoc in *. cbn [app] in Hf |- *.
    rewrite scan_once_object, skip_ws_indent by reflexivity.
    cbn [N.eqb Pos.eqb].
    pose proof (object_items_ok lvl rest kxs Hxs k x f [] Hx) as Ho.
    cbn [rev app] in Ho. rewrite dict_of_pairs_nodup in Ho by exact Hnd.
    apply Ho. len_norm.
Qed.

Lemma json_loads_dumps v : wf_value v -> json_loads (json_dumps v) = POk v.
Proof.
  intros Hwf. unfold json_loads, json_dumps.
  destruct (encode_head 0 v) as (c & tl & Hd & Hc).
  assert (Hbom : has_bom (encode 0 v) = false).
  { rewrite Hd. cbn. apply N.eqb_neq. apply value_start_cases in Hc. lia. }
  rewrite Hbom.
  pose proof (skip_ws_value 0 v []) as Hs. rewrite app_nil_r in Hs.
  rewrite Hs.
  pose proof (wf_value_decodes v Hwf (2 * length (encode 0 v) + 2)%nat
                0%nat [] I) as Hdec.
  rewrite app_nil_r in Hdec. rewrite Hdec by lia. reflexivity.
Qed.

(** ** The recursion bound of [json_loads] is never reached *)

Lemma skip_ws_length s : (length (skip_ws s) <= length s)%nat.
Proof.
  induction s as [|c s IH]; cbn [skip_ws]; [lia|].
  destruct (is_ws c); cbn [length]; lia.
Qed.

Lemma strip_prefix_length p : forall s r,
  strip_prefix p s = Some r -> (length r + length p = length s)%nat.
Proof.
  induction p as [|a p IH]; intros [|b s] r H; cbn in H; try discriminate.
  - inversion H; subst. cbn. lia.
  - inversion H; subst. cbn. lia.
  - destruct (a =? b); [|discriminate]. apply IH in H. cbn. lia.
Qed.

Lemma decode_uXXXX_length s n r :
  decode_uXXXX s = Some (n, r) -> (length r + 4 = length s)%nat.
Proof.
  unfold decode_uXXXX.
  destruct s as [|h1 [|h2 [|h3 [|h4 s]]]]; try discriminate.
  destruct (hexval h1), (hexval h2), (hexval h3), (hexval h4);
    try discriminate.
  intros H. inversion H; subst. cbn. lia.
Qed.

Lemma scan_digits_length s : forall a,
  (length (snd (scan_digits a s)) <= length s)%nat.
Proof.
  induction s as [|c s IH]; intros a; cbn [scan_digits]; [cbn; lia|].
  destruct (is_digit c); [specialize (IH (10 * a + (c - 48)))|];
    cbn [length snd]; lia.
Qed.

Lemma scanstring_fuel f : forall s acc,
  ((length s < f)%nat -> scanstring f s acc <> PFuel)
  /\ (forall t r, scanstring f s acc = POk (t, r) ->
                  (length r < length s)%nat).
Proof.
  induction f as [|f IH]; intros s acc.
  - split; [lia | discriminate].
  - cbn [scanstring].
    destruct s as [|c s1]; [split; [discriminate | discriminate]|].
    destruct (c =? 34).
    { split; [discriminate|]. intros t r H. inversion H; subst. cbn. lia. }
    destruct (c =? 92).
    + destruct s1 as [|e s2]; [split; discriminate|].
      destruct (e =? 117).
      * destruct (decode_uXXXX s2) as [[uni s3]|] eqn:E1;
          [|split; discriminate].
        apply decode_uXXXX_length in E1.
        assert (Hs3 : forall a,
                   ((length (c :: e :: s2) < S f)%nat ->
                    scanstring f s3 a <> PFuel)
                   /\ (forall t r, scanstring f s3 a = POk (t, r) ->
                                   (length r < length (c :: e :: s2))%nat)).
        { intros a. destruct (IH s3 a) as [H1 H2]. split.
          - intros Hf. apply H1. cbn [length] in Hf. lia.
          - intros t r H. apply H2 in H. cbn [length]. lia. }
        destruct (is_high_surrogate uni).
        -- destruct (strip_prefix [92; 117] s3) as [s4|] eqn:E2;
             [|split; discriminate].
           apply strip_prefix_length in E2. cbn [length] in E2.
           destruct (decode_uXXXX s4) as [[uni2 s5]|] eqn:E3;
             [|split; discriminate].
           apply decode_uXXXX_length in E3.
           destruct (is_low_surrogate uni2); [|split; discriminate].
           destruct (IH s5 (65536 + ((uni - 55296) * 1024 + (uni2 - 56320))
                            :: acc)) as [H1 H2].
           split.
           ++ intros Hf. apply H1. cbn [length] in Hf. lia.
           ++ intros t r H. apply H2 in H. cbn [length]. lia.
        -- destruct (is_low_surrogate uni); [split; discriminate | apply Hs3].
      * destruct (unescape e) as [c'|]; [|split; discriminate].
        destruct (IH s2 (c' :: acc)) as [H1 H2]. split.
        -- intros Hf. apply H1. cbn [length] in Hf. lia.
        -- intros t r H. apply H2 in H. cbn [length]. lia.
    + destruct (c <? 32); [split; discriminate|].
      destruct (IH s1 (c :: acc)) as [H1 H2]. split.
      * intros Hf. apply H1. cbn [length] in Hf. lia.
      * intros t r H. apply H2 in H. cbn [length]. lia.
Qed.

Lemma match_number_fuel s :
  match_number s <> PFuel
  /\ (forall z r, match_number s = POk (z, r) -> (length r < length s)%nat).
Proof.
  unfold match_number.
  assert (Hm : (length (snd (strip_minus s)) <= length s)%nat).
  { unfold strip_minus. destruct s as [|c r]; [cbn; lia|].
    destruct (c =? 45); cbn; lia. }
  destruct (strip_minus s) as [neg s1]. cbn [snd] in Hm.
  unfold int_part. destruct s1 as [|c s2]; [split; discriminate|].
  destruct (c =? 48).
  - destruct (has_frac s2 || has_exp s2); split; try discriminate.
    intros z r H. inversion H; subst. cbn [length] in Hm. lia.
  - destruct (is_digit c); [|split; discriminate].
    pose proof (scan_digits_length s2 (c - 48)) as Hl.
    destruct (scan_digits (c - 48) s2) as [n rest]. cbn [snd] in Hl.
    destruct (has_frac rest || has_exp rest); split; try discriminate.
    intros z r H. inversion H; subst. cbn [length] in Hm. lia.
Qed.

Lemma scan_once_step f :
  array_items_total f -> object_items_total f -> scan_once_total (S f).
Proof.
  intros IHa IHo s. cbn [scan_once].
  destruct s as [|c s1]; [split; discriminate|].
  destruct (c =? 34).
  { destruct (scanstring_fuel f s1 []) as [H1 H2].
    destruct (scanstring f s1 []) as [[t r]| | |]; split;
      try discriminate.
    - intros v r' H. inversion H; subst.
      specialize (H2 _ _ eq_refl). cbn [length]. lia.
    - intros Hf. exfalso. apply H1; [cbn [length] in Hf; lia | reflexivity]. }
  destruct (c =? 123).
  { pose proof (skip_ws_length s1) as Hw.
    destruct (skip_ws s1) as [|c' r]; [split; discriminate|].
    cbn [length] in Hw.
    destruct (c' =? 125).
    { split; [discriminate|]. intros v r' H. inversion H; subst.
      cbn [length]. lia. }
    destruct (c' =? 34); [|split; discriminate].
    destruct (IHo r []) as [H1 H2]. split.
    - intros Hf. apply H1. cbn [length] in Hf. lia.
    - intros v r' H. apply H2 in H. cbn [length]. lia. }
  destruct (c =? 91).
  { pose proof (skip_ws_length s1) as Hw.
    destruct (skip_ws s1) as [|c' r]; [split; discriminate|].
    destruct (c' =? 93).
    { split; [discriminate|]. intros v r' H. inversion H; subst.
      cbn [length] in *. lia. }
    destruct (IHa (c' :: r) []) as [H1 H2]. split.
    - intros Hf. apply H1. cbn [length] in *. lia.
    - intros v r' H. apply H2 in H. cbn [length] in *. lia. }
  destruct (strip_prefix [110; 117; 108; 108] (c :: s1)) as [r|] eqn:E1.
  { apply strip_prefix_length in E1. split; [discriminate|].
    intros v r' H. inversion H; subst. cbn [length] in *. lia. }
  destruct (strip_prefix [116; 114; 117; 101] (c :: s1)) as [r|] eqn:E2.
  { apply strip_prefix_length in E2. split; [discriminate|].
    intros v r' H. inversion H; subst. cbn [length] in *. lia. }
  destruct (strip_prefix [102; 97; 108; 115; 101] (c :: s1)) as [r|] eqn:E3.
  { apply strip_prefix_length in E3. split; [discriminate|].
    intros v r' H. inversion H; subst. cbn [length] in *. lia. }
  destruct (match_number_fuel (c :: s1)) as [H1 H2].
  destruct (match_number (c :: s1)) as [[z r]| | |].
  - split; [discriminate|]. intros v r' H. inversion H; subst.
    now apply (H2 z).
  - match goal with
    | |- context [if ?b then _ else _] => destruct b
    end; split; discriminate.
  - split; discriminate.
  - congruence.
Qed.

Lemma array_items_step f :
  scan_once_total f -> array_items_total f -> array_items_total (S f).
Proof.
  intros IHs IHa s acc. rewrite array_items_eq.
  destruct (IHs s) as [H1 H2].
  destruct (scan_once f s) as [[v r]| | |]; try (split; discriminate).
  - specialize (H2 _ _ eq_refl).
    pose proof (skip_ws_length r) as Hw.
    destruct (skip_ws r) as [|c r']; [split; discriminate|].
    cbn [length] in Hw.
    destruct (c =? 93).
    { split; [discriminate|]. intros v' r'' H. inversion H; subst. lia. }
    destruct (c =? 44); [|split; discriminate].
    pose proof (skip_ws_length r') as Hw'.
    destruct (IHa (skip_ws r') (v :: acc)) as [H3 H4]. split.
    + intros Hf. apply H3. lia.
    + intros v' r'' H. apply H4 in H. lia.
  - split; [|discriminate]. intros Hf. exfalso. apply H1; [lia | reflexivity].
Qed.

Lemma object_items_step f :
  scan_once_total f -> object_items_total f -> object_items_total (S f).
Proof.
  intros IHs IHo s acc. rewrite object_items_eq.
  destruct (scanstring_fuel f s []) as [H1 H2].
  destruct (scanstring f s []) as [[k r]| | |]; try (split; discriminate).
  - specialize (H2 _ _ eq_refl).
    pose proof (skip_ws_length r) as Hw.
    destruct (skip_ws r) as [|c r1]; [split; discriminate|].
    cbn [length] in Hw.
    destruct (c =? 58); [|split; discriminate].
    pose proof (skip_ws_length r1) as Hw1.
    destruct (IHs (skip_ws r1)) as [H3 H4].
    destruct (scan_once f (skip_ws r1)) as [[v r2]| | |];
      try (split; discriminate).
    + specialize (H4 _ _ eq_refl).
      pose proof (skip_ws_length r2) as Hw2.
      destruct (skip_ws r2) as [|c' r3]; [split; discriminate|].
      cbn [length] in Hw2.
      destruct (c' =? 125).
      { split; [discriminate|]. intros v' r' H. inversion H; subst. lia. }
      destruct (c' =? 44); [|split; discriminate].
      pose proof (skip_ws_length r3) as Hw3.
      destruct (skip_ws r3) as [|q r4]; [split; discriminate|].
      cbn [length] in Hw3.
      destruct (q =? 34); [|split; discriminate].
      destruct (IHo r4 ((k, v) :: acc)) as [H5 H6]. split.
      * intros Hf. apply H5. lia.
      * intros v' r' H. apply H6 in H. lia.
    + split; [|discriminate]. intros Hf. exfalso.
      apply H3; [lia | reflexivity].
  - split; [|discriminate]. intros Hf. exfalso. apply H1; [lia | reflexivity].
Qed.

Lemma scan_total f :
  scan_once_total f /\ array_items_total f /\ object_items_total f.
Proof.
  induction f as [|f (IHs & IHa & IHo)].
  - repeat split; try discriminate; cbn; lia.
  - split; [|split].
    + now apply scan_once_step.
    + now apply array_items_step.
    + now apply object_items_step.
Qed.

(** [json_loads] answers with a value, a decoding error or a float. *)
Lemma json_loads_fuel s : json_loads s <> PFuel.
Proof.
  unfold json_loads. destruct (has_bom s); [discriminate|].
  destruct (scan_total (2 * length s + 2)) as [Hs _].
  destruct (Hs (skip_ws s)) as [H1 _].
  pose proof (skip_ws_length s) as Hw.
  destruct (scan_once (2 * length s + 2) (skip_ws s)) as [[v r]| | |];
    try discriminate.
  - destruct (skip_ws r); discriminate.
  - exfalso. apply H1; [lia | reflexivity].
Qed.

(** ** random.sample draws without replacement *)

Lemma firstn_S_nth (l : list value) : forall m,
  (m < length l)%nat -> firstn (S m) l = firstn m l ++ [nth m l VNone].
Proof.
  induction l as [|a l IH]; intros m Hm; [cbn in Hm; lia|].
  destruct m as [|m]; [reflexivity|].
  cbn [firstn nth app]. rewrite <- IH by (cbn in Hm; lia). reflexivity.
Qed.

Lemma list_set_length l : forall j x, length (list_set j x l) = length l.
Proof.
  induction l as [|a l IH]; intros [|j] x; cbn; auto.
Qed.

(** Taking [pool[j]] and moving the last live element into its place leaves
    the live elements, as a multiset, minus the one taken. *)
Lemma pool_step (pool : list value) : forall j m,
  (j < S m)%nat -> (S m <= length pool)%nat ->
  Permutation
    (nth j pool VNone :: firstn m (list_set j (nth m pool VNone) pool))
    (firstn (S m) pool).
Proof.
  induction pool as [|a t IH]; intros j m Hj Hm; [cbn in Hm; lia|].
  destruct j as [|j].
  - destruct m as [|m]; [reflexivity|].
    cbn [nth list_set]. rewrite !firstn_cons. apply perm_skip.
    rewrite firstn_S_nth by (cbn in Hm; lia).
    apply Permutation_cons_append.
  - destruct m as [|m]; [lia|].
    cbn [nth list_set]. rewrite !firstn_cons.
    etransitivity; [apply perm_swap|]. apply perm_skip.
    apply IH; cbn in Hm; lia.
Qed.

Lemma randbelow_spec n w :
  0 < n ->
  exists j t,
    randbelow n w = (Ok j, mkWorld (file w) (stdin w) t (stdout w))
    /\ j < n.
Proof.
  intros Hn. unfold randbelow. destruct w as [f sin [|x t] out]; cbn.
  - exists 0, []. split; [reflexivity | exact Hn].
  - exists (x mod n), t. split; [reflexivity | apply N.mod_lt; lia].
Qed.

Lemma sample_loop_spec k : forall n i pool w,
  (i + k <= n)%nat -> n = length pool ->
  exists res t,
    sample_loop k n i pool w
    = (Ok res, mkWorld (file w) (stdin w) t (stdout w))
    /\ length res = k
    /\ exists rest, Permutation (res ++ rest) (firstn (n - i) pool).
Proof.
  induction k as [|k IH]; intros n i pool w Hk Hn.
  - exists [], (rng w). destruct w. cbn. repeat split.
    exists (firstn (n - i) pool). reflexivity.
  - cbn [sample_loop]. unfold bind at 1.
    destruct (randbelow_spec (N.of_nat (n - i)) w) as (j & t & -> & Hj);
      [lia|].
    set (w1 := mkWorld (file w) (stdin w) t (stdout w)).
    set (pool' := list_set (N.to_nat j)
                    (nth (n - i - 1) pool VNone) pool).
    destruct (IH n (S i) pool' w1) as (res & t' & Hres & Hlen & rest & Hp);
      [lia | unfold pool'; now rewrite list_set_length |].
    unfold bind. rewrite Hres. cbn [ret file stdin stdout w1].
    exists (nth (N.to_nat j) pool VNone :: res), t'.
    split; [reflexivity|]. split; [cbn; lia|].
    exists rest. cbn [app].
    etransitivity; [apply perm_skip; exact Hp|].
    replace (n - i)%nat with (S (n - S i)) by lia.
    unfold pool'. replace (n - i - 1)%nat with (n - S i)%nat by lia.
    apply pool_step; lia.
Qed.

Lemma random_sample_spec qs k w :
  (0 <= k <= Z.of_nat (length qs))%Z ->
  exists gq t,
    random_sample (VList qs) k w
    = (Ok gq, mkWorld (file w) (stdin w) t (stdout w))
    /\ length gq = Z.to_nat k
    /\ exists rest, Permutation (gq ++ rest) qs.
Proof.
  intros Hk. unfold random_sample. cbn [py_iter].
  replace ((0 <=? k) && (k <=? Z.of_nat (length qs)))%Z with true
    by (symmetry; apply andb_true_intro; split; apply Z.leb_le; lia).
  destruct (sample_loop_spec (Z.to_nat k) (length qs) 0 qs w)
    as (gq & t & Hs & Hl & rest & Hp); [lia | reflexivity |].
  exists gq, t. split; [exact Hs|]. split; [exact Hl|].
  exists rest. rewrite Nat.sub_0_r, firstn_all in Hp. exact Hp.
Qed.

(** ** The utf-8 codec *)

Lemma scalar_cases c :
  scalar c = true <-> c < 1114112 /\ (c < 55296 \/ 57343 < c).
Proof.
  unfold scalar, is_high_surrogate, is_low_surrogate.
  rewrite !andb_true_iff, !negb_true_iff, !andb_false_iff.
  rewrite N.ltb_lt, !N.leb_gt. lia.
Qed.

Lemma utf8_char_roundtrip c :
  scalar c = true ->
  exists a,
    utf8_encode_char c = Some a
    /\ forall rest,
         utf8_decode (a ++ rest) = option_map (cons c) (utf8_decode rest).
Proof.
  intros Hs. unfold utf8_encode_char. rewrite Hs. cbn [negb].
  apply scalar_cases in Hs.
  pose proof (N.div_mod c 64 ltac:(lia)) as E1.
  pose proof (N.mod_lt c 64 ltac:(lia)) as L1.
  pose proof (N.div_mod (c / 64) 64 ltac:(lia)) as E2.
  pose proof (N.mod_lt (c / 64) 64 ltac:(lia)) as L2.
  pose proof (N.div_mod (c / 64 / 64) 64 ltac:(lia)) as E3.
  pose proof (N.mod_lt (c / 64 / 64) 64 ltac:(lia)) as L3.
  revert E1 L1 E2 L2 E3 L3.
  generalize (c / 64 / 64 mod 64), (c / 64 / 64 / 64).
  generalize ((c / 64) mod 64), (c / 64 / 64).
  generalize (c mod 64), (c / 64).
  intros r1 q1 r2 q2 r3 q3 E1 L1 E2 L2 E3 L3.
  destruct (N.ltb_spec c 128) as [H1|H1].
  { eexists. split; [reflexivity|]. intros rest. cbn [app utf8_decode].
    now replace (c <? 128) with true by (symmetry; apply N.ltb_lt; lia). }
  destruct (N.ltb_spec c 2048) as [H2|H2].
  { eexists. split; [reflexivity|]. intros rest.
    cbn [app utf8_decode]. unfold in_range. utf8_tests.
    cbn [andb]. do 2 f_equal. lia. }
  destruct (N.ltb_spec c 65536) as [H3|H3].
  { eexists. split; [reflexivity|]. intros rest.
    cbn [app utf8_decode]. unfold in_range.
    destruct (N.eq_dec q2 0) as [Hq|Hq];
      destruct (N.eq_dec q2 13) as [Hq'|Hq'];
      utf8_tests; cbn [andb]; utf8_tests; cbn [andb];
      do 2 f_equal; lia. }
  eexists. split; [reflexivity|]. intros rest.
  cbn [app utf8_decode]. unfold in_range.
  destruct (N.eq_dec q3 0) as [Hq|Hq];
    destruct (N.eq_dec q3 4) as [Hq'|Hq'];
    utf8_tests; cbn [andb]; utf8_tests; cbn [andb];
    do 2 f_equal; lia.
Qed.

Lemma utf8_roundtrip t :
  scalar_text t ->
  exists bs, utf8_encode t = Some bs /\ utf8_decode bs = Some t.
Proof.
  induction 1 as [|c t Hc Ht (bs & He & Hd)].
  - exists []. split; reflexivity.
  - destruct (utf8_char_roundtrip c Hc) as (a & Ha & Hrt).
    exists (a ++ bs). cbn [utf8_encode]. rewrite Ha, He.
    split; [reflexivity|]. now rewrite Hrt, Hd.
Qed.

(** ** The encoder writes text the codec accepts *)

Lemma ascii_scalar c : c < 128 -> scalar c = true.
Proof. intros H. apply scalar_cases. lia. Qed.

Lemma scalar_text_app a b :
  scalar_text a -> scalar_text b -> scalar_text (a ++ b).
Proof. intros Ha Hb. apply Forall_app. now split. Qed.

Lemma digits_aux_scalar fuel : forall n acc,
  scalar_text acc -> scalar_text (digits_aux fuel n acc).
Proof.
  induction fuel as [|f IH]; intros n acc Hacc; cbn [digits_aux];
    [exact Hacc|].
  destruct (N.ltb_spec n 10) as [Hlt|Hge].
  - constructor; [apply ascii_scalar; lia | exact Hacc].
  - apply IH. constructor; [|exact Hacc].
    apply ascii_scalar. pose proof (N.mod_lt n 10 ltac:(lia)) as L.
    revert L. generalize (n mod 10). intros; lia.
Qed.

Lemma intstr_scalar z : scalar_text (intstr z).
Proof.
  destruct z; unfold intstr, digits;
    repeat first [ apply digits_aux_scalar | constructor ].
Qed.

Lemma hexdigit_scalar n : scalar (hexdigit (n mod 16)) = true.
Proof.
  apply ascii_scalar. unfold hexdigit.
  pose proof (N.mod_lt n 16 ltac:(lia)) as L. revert L.
  generalize (n mod 16). intros m L. destruct (m <? 10); lia.
Qed.

Lemma escape_char_scalar c : scalar c = true -> scalar_text (escape_char c).
Proof.
  intros Hc. unfold escape_char.
  repeat match goal with
         | |- context [if ?b then _ else _] => destruct b
         end;
    repeat first [ apply hexdigit_scalar | exact Hc | constructor ].
Qed.

Lemma encode_basestring_scalar s :
  scalar_text s -> scalar_text (encode_basestring s).
Proof.
  intros Hs. unfold encode_basestring.
  apply scalar_text_app; [repeat constructor|].
  apply scalar_text_app; [|repeat constructor].
  induction Hs as [|c s Hc Hs IH]; cbn [flat_map]; [constructor|].
  apply scalar_text_app; [now apply escape_char_scalar | exact IH].
Qed.

Lemma newline_indent_scalar lvl : scalar_text (newline_indent lvl).
Proof.
  unfold newline_indent. constructor; [reflexivity|].
  induction (2 * lvl)%nat; cbn; constructor; auto.
Qed.

#[local] Hint Resolve scalar_text_app newline_indent_scalar
  encode_basestring_scalar Forall_nil : scalar.
#[local] Hint Extern 1 (scalar_text (_ :: _)) =>
  apply Forall_cons; [reflexivity|] : scalar.

Lemma encode_scalar v : wf_value v -> forall lvl, scalar_text (encode lvl v).
Proof.
  induction v as [ | b | z | s | l IH | d IH ] using value_ind;
    intros Hwf lvl.
  - repeat constructor.
  - destruct b; repeat constructor.
  - apply intstr_scalar.
  - inversion Hwf; subst. now apply encode_basestring_scalar.
  - inversion Hwf as [ | | | | l' Hl | ]; subst.
    destruct l as [|x xs]; [repeat constructor|].
    inversion IH as [|? ? IHx IHxs]; subst.
    inversion Hl as [|? ? Hx Hxs]; subst.
    assert (Hitems : scalar_text
                       (flat_map (fun y => [44] ++ newline_indent (S lvl)
                                           ++ encode (S lvl) y) xs)).
    { clear - IHxs Hxs.
      induction IHxs as [|y ys IHy _ IH']; cbn [flat_map]; [constructor|].
      inversion Hxs; subst. auto 20 with scalar. }
    cbn [encode]. auto 20 with scalar.
  - inversion Hwf as [ | | | | | d' Hnd Hd ]; subst.
    destruct d as [|[k x] kxs]; [repeat constructor|].
    inversion IH as [|? ? IHx IHxs]; subst.
    inversion Hd as [|? ? [Hk Hx] Hxs]; subst.
    cbn [fst snd] in *.
    assert (Hitems : scalar_text
                       (flat_map
                          (fun ky => [44] ++ newline_indent (S lvl)
                                     ++ encode_basestring (fst ky) ++ [58; 32]
                                     ++ encode (S lvl) (snd ky)) kxs)).
    { clear - IHxs Hxs.
      induction IHxs as [|[k' y] ys IHy _ IH']; cbn [flat_map];
        [constructor|].
      inversion Hxs as [|? ? [Hk' Hy] Hys]; subst. cbn [fst snd] in *.
      auto 20 with scalar. }
    cbn [encode]. auto 20 with scalar.
Qed.

(** ** Loading and saving *)

Lemma world_eta w : mkWorld (file w) (stdin w) (rng w) (stdout w) = w.
Proof. now destruct w. Qed.

Lemma file_of_wf v :
  wf_value v ->
  exists content,
    file_of v = Some content /\ collection_of (Some content) = Some v.
Proof.
  intros Hwf. unfold file_of.
  destruct (utf8_roundtrip (json_dumps v)) as (bs & He & Hd);
    [now apply encode_scalar|].
  exists bs. split; [exact He|].
  unfold collection_of. now rewrite Hd, json_loads_dumps.
Qed.

Lemma load_quotes_spec w v :
  collection_of (file w) = Some v ->
  load_quotes w
  = (Ok v, mkWorld (created (file w)) (stdin w) (rng w) (stdout w)).
Proof.
  unfold collection_of, load_quotes, created.
  destruct w as [[c|] sin rg out]; cbn [file stdin rng stdout].
  - destruct (utf8_decode c) as [text|]; [|discriminate].
    destruct (json_loads text) as [v'| | |]; intros H; inversion H; subst;
      reflexivity.
  - intros H. inversion H; subst. reflexivity.
Qed.

Lemma collection_nonempty f v :
  collection_of f = Some v -> truthy v = true -> created f = f.
Proof.
  destruct f as [c|]; [reflexivity|].
  cbn. intros H. inversion H; subst. discriminate.
Qed.



(** C6 fails on a file that is not UTF-8: the bytes of ["caf\xe9"], as an
    editor saving in Latin-1 writes them, are not valid JSON, and reading
    them raises [UnicodeDecodeError], which [except json.JSONDecodeError]
    does not catch; [load_quotes] raises instead of returning the empty
    list. *)
Theorem load_quotes_not_utf8_raises :
  utf8_decode latin1_file = None
  /\ load_quotes (mkWorld (Some latin1_file) [] [] [])
     = (Raise UnicodeDecodeError, mkWorld (Some latin1_file) [] [] []).
Proof. split; reflexivity. Qed.



(** ** play without quotes, and with zero rounds *)

(** C8: on an empty collection [play] prints the "no quotes" message and
    leaves through [typer.Exit]: no round is played, nothing is read from
    the console or from the random source. *)
Theorem play_empty_collection (lower : str -> str) (rounds : Z) (w : world) :
  collection_of (file w) = Some (VList []) ->
  play lower rounds w
  = (Raise Exit,
     mkWorld (created (file w)) (stdin w) (rng w)
       (stdout w ++ [NoQuotesFound])).
Proof.
  intros H. unfold play, bind.
  rewrite (load_quotes_spec w _ H). reflexivity.
Qed.

Lemma play_empty_collection_witness :
  collection_of (file (mkWorld None [u "x"] [4] [])) = Some (VList [])
  /\ play ascii_lower 5 (mkWorld None [u "x"] [4] [])
     = (Raise Exit, mkWorld (Some (u "[]")) [u "x"] [4] [NoQuotesFound]).
Proof.
  split.
  - reflexivity.
  - apply (play_empty_collection ascii_lower 5 (mkWorld None [u "x"] [4] [])).
    reflexivity.
Defined.

(** C10: with [--rounds 0] on a collection that is not empty, [play] asks
    no question and ends with the Game Over banner and the score 0/0. *)
Theorem play_zero_rounds (lower : str -> str) (w : world) (qs : list value) :
  collection_of (file w) = Some (VList qs) -> qs <> [] ->
  play lower 0 w
  = (Ok tt,
     mkWorld (file w) (stdin w) (rng w)
       (stdout w ++ [Welcome; GameOver; FinalScore 0 0])).
Proof.
  intros H Hne. unfold play, bind.
  rewrite (load_quotes_spec w _ H).
  rewrite (collection_nonempty _ _ H) by (destruct qs; [easy | reflexivity]).
  destruct qs as [|q qs]; [easy|].
  cbn [truthy negb print lift py_len file stdin rng stdout].
  replace (Z.min 0 (Z.of_nat (length (q :: qs)))) with 0%Z by lia.
  cbn. unfold print. cbn [file stdin rng stdout].
  now rewrite <- !app_assoc.
Qed.

Lemma play_zero_rounds_witness :
  collection_of (file (mkWorld (file_of example_quotes) [] [7] []))
  = Some (VList [caesar; cicero])
  /\ [caesar; cicero] <> []
  /\ play ascii_lower 0 (mkWorld (file_of example_quotes) [] [7] [])
     = (Ok tt,
        mkWorld (file_of example_quotes) [] [7]
          [Welcome; GameOver; FinalScore 0 0]).
Proof.
  assert (H : collection_of
                (file (mkWorld (file_of example_quotes) [] [7] []))
              = Some (VList [caesar; cicero])) by reflexivity.
  assert (Hne : [caesar; cicero] <> []) by discriminate.
  split; [exact H|]. split; [exact Hne|].
  apply (play_zero_rounds ascii_lower
           (mkWorld (file_of example_quotes) [] [7] [])
           [caesar; cicero] H Hne).
Defined.

(** ** Identifiers *)

Lemma ids_of_has_id qs ids : Forall2 has_id qs ids -> ids_of qs = Ok ids.
Proof.
  induction 1 as [|q z qs ids (d & -> & Hd) _ IH]; [reflexivity|].
  cbn [ids_of subscript]. rewrite Hd. cbn [as_number]. now rewrite IH.
Qed.

Lemma fold_left_max_spec zs : forall z,
  In (fold_left Z.max zs z) (z :: zs)
  /\ Forall (fun y => (y <= fold_left Z.max zs z)%Z) (z :: zs).
Proof.
  induction zs as [|a zs IH]; intros z; cbn [fold_left].
  - split; [now left | constructor; [lia | constructor]].
  - destruct (IH (Z.max z a)) as [Hin Hall]. split.
    + destruct Hin as [Hm | Hin]; [|right; now right].
      rewrite <- Hm.
      destruct (Z.max_spec z a) as [[_ ->] | [_ ->]];
        [right; now left | now left].
    + inversion Hall as [|? ? Hz Hzs]; subst.
      constructor; [lia|]. constructor; [lia | exact Hzs].
Qed.

Lemma get_next_id_max q qs ids :
  Forall2 has_id (q :: qs) ids ->
  exists m,
    In m ids /\ Forall (fun z => (z <= m)%Z) ids
    /\ get_next_id (VList (q :: qs)) = Ok (m + 1)%Z.
Proof.
  intros H. unfold get_next_id. cbn [truthy negb py_iter].
  rewrite (ids_of_has_id _ _ H).
  inversion H as [|? z ? zs _ _]; subst.
  destruct (fold_left_max_spec zs z) as [Hin Hall].
  exists (fold_left Z.max zs z). auto.
Qed.

(** C3: [get_next_id] returns 1 for the empty collection and, for a
    collection that is not empty, the largest id plus 1; on the quotes with
    ids 3 and 7 it returns 8. *)
Theorem get_next_id_spec :
  get_next_id (VList []) = Ok 1%Z
  /\ (forall qs ids,
        qs <> [] -> Forall2 has_id qs ids ->
        exists m,
          In m ids /\ Forall (fun z => (z <= m)%Z) ids
          /\ get_next_id (VList qs) = Ok (m + 1)%Z)
  /\ get_next_id
       (VList [VDict [(u "id", VInt 3)]; VDict [(u "id", VInt 7)]])
     = Ok 8%Z.
Proof.
  split; [reflexivity|]. split; [|reflexivity].
  intros [|q qs] ids Hne H; [easy|].
  now apply get_next_id_max.
Qed.

Lemma get_next_id_spec_witness :
  [caesar; cicero] <> []
  /\ Forall2 has_id [caesar; cicero] [1; 2]%Z
  /\ exists m,
       In m [1; 2]%Z /\ Forall (fun z => (z <= m)%Z) [1; 2]%Z
       /\ get_next_id (VList [caesar; cicero]) = Ok (m + 1)%Z.
Proof.
  assert (Hne : [caesar; cicero] <> []) by discriminate.
  assert (H : Forall2 has_id [caesar; cicero] [1; 2]%Z).
  { repeat constructor; eexists; (split; [reflexivity | reflexivity]). }
  split; [exact Hne|]. split; [exact H|].
  destruct get_next_id_spec as (_ & Hmax & _).
  exact (Hmax [caesar; cicero] [1; 2]%Z Hne H).
Defined.

Lemma get_next_id_fresh qs ids :
  Forall2 has_id qs ids ->
  exists new_id,
    get_next_id (VList qs) = Ok new_id
    /\ Forall (fun z => (z < new_id)%Z) ids.
Proof.
  intros H. destruct qs as [|q qs].
  - inversion H; subst. exists 1%Z. split; [reflexivity | constructor].
  - destruct (get_next_id_max q qs ids H) as (m & _ & Hall & Hm).
    exists (m + 1)%Z. split; [exact Hm|].
    eapply Forall_impl; [|exact Hall]. cbn. intros z Hz. lia.
Qed.

(** ** What the decoder returns is well formed *)

Lemma dict_set_keys d k v :
  (In k (map fst d) -> map fst (dict_set d k v) = map fst d)
  /\ (~ In k (map fst d) -> map fst (dict_set d k v) = map fst d ++ [k]).
Proof.
  induction d as [|[k' v'] d [IH1 IH2]]; cbn [dict_set map fst app].
  - split; [intros [] | reflexivity].
  - destruct (list_eq_dec N.eq_dec k' k) as [->|Hne].
    + rewrite str_eqb_refl. split; [reflexivity|].
      intros H. exfalso. apply H. now left.
    + rewrite str_eqb_neq by exact Hne. cbn [map fst]. split.
      * intros [H|H]; [congruence|]. now rewrite IH1.
      * intros H. rewrite IH2; [reflexivity|]. intros Hin. apply H. now right.
Qed.

Lemma dict_set_nodup d k v :
  NoDup (map fst d) -> NoDup (map fst (dict_set d k v)).
Proof.
  intros Hnd. destruct (dict_set_keys d k v) as [H1 H2].
  destruct (in_dec (list_eq_dec N.eq_dec) k (map fst d)) as [Hin|Hnin].
  - now rewrite H1.
  - rewrite H2 by exact Hnin.
    apply NoDup_app; [exact Hnd | repeat constructor; intros [] |].
    intros x Hx [<-|[]]. now apply Hnin.
Qed.

Lemma dict_set_wf d k v :
  Forall wf_pair d -> scalar_text k -> wf_value v ->
  Forall wf_pair (dict_set d k v).
Proof.
  intros Hd Hk Hv. induction Hd as [|[k' v'] d Hv' Hd IH]; cbn [dict_set].
  - repeat constructor; assumption.
  - destruct (str_eqb k' k); constructor; auto.
    destruct Hv' as [Hk' _]. split; assumption.
Qed.

Lemma wf_pair_dict d : NoDup (map fst d) -> Forall wf_pair d -> wf_value (VDict d).
Proof. intros Hnd Hd. constructor; assumption. Qed.

Lemma dict_of_pairs_wf pairs :
  Forall wf_pair pairs -> wf_value (VDict (dict_of_pairs pairs)).
Proof.
  intros Hp. unfold dict_of_pairs.
  assert (H : forall acc,
             NoDup (map fst acc) -> Forall wf_pair acc ->
             wf_value
               (VDict (fold_left (fun d kv => dict_set d (fst kv) (snd kv))
                         pairs acc))).
  { induction Hp as [|[k v] ps [Hk Hv] Hps IH]; intros acc Hnd Hacc;
      cbn [fold_left fst snd] in *.
    - now apply wf_pair_dict.
    - apply IH; [now apply dict_set_nodup | now apply dict_set_wf]. }
  apply H; constructor.
Qed.

Lemma skip_ws_scalar s : scalar_text s -> scalar_text (skip_ws s).
Proof.
  induction 1 as [|c s Hc Hs IH]; cbn [skip_ws]; [constructor|].
  destruct (is_ws c); [exact IH | now constructor].
Qed.

Lemma strip_prefix_scalar p : forall s r,
  strip_prefix p s = Some r -> scalar_text s -> scalar_text r.
Proof.
  induction p as [|a p IH]; intros s r H Hs.
  - destruct s; cbn in H; inversion H; subst; exact Hs.
  - destruct s as [|b s]; cbn in H; [discriminate|].
    destruct (a =? b); [|discriminate].
    inversion Hs; subst. eapply IH; eassumption.
Qed.

Lemma hexval_bound c v : hexval c = Some v -> v < 16.
Proof.
  unfold hexval, is_digit.
  destruct ((48 <=? c) && (c <=? 57)) eqn:E1.
  { apply andb_true_iff in E1. rewrite !N.leb_le in E1.
    intros H. inversion H; subst. lia. }
  destruct ((97 <=? c) && (c <=? 102)) eqn:E2.
  { apply andb_true_iff in E2. rewrite !N.leb_le in E2.
    intros H. inversion H; subst. lia. }
  destruct ((65 <=? c) && (c <=? 70)) eqn:E3; [|discriminate].
  apply andb_true_iff in E3. rewrite !N.leb_le in E3.
  intros H. inversion H; subst. lia.
Qed.

Lemma decode_uXXXX_scalar s n r :
  decode_uXXXX s = Some (n, r) -> scalar_text s ->
  scalar_text r /\ n < 65536.
Proof.
  unfold decode_uXXXX.
  destruct s as [|h1 [|h2 [|h3 [|h4 s]]]]; try discriminate.
  destruct (hexval h1) as [a|] eqn:E1; [|discriminate].
  destruct (hexval h2) as [b|] eqn:E2; [|discriminate].
  destruct (hexval h3) as [c|] eqn:E3; [|discriminate].
  destruct (hexval h4) as [d|] eqn:E4; [|discriminate].
  apply hexval_bound in E1, E2, E3, E4.
  intros H Hs. inversion H; subst. split; [|lia].
  do 4 (inversion Hs as [|? ? _ Hs']; subst; clear Hs; rename Hs' into Hs).
  exact Hs.
Qed.

Lemma scan_digits_scalar s : forall a,
  scalar_text s -> scalar_text (snd (scan_digits a s)).
Proof.
  induction s as [|c s IH]; intros a Hs; cbn [scan_digits]; [constructor|].
  destruct (is_digit c); [|exact Hs].
  inversion Hs; subst. now apply IH.
Qed.

Lemma match_number_scalar s z r :
  match_number s = POk (z, r) -> scalar_text s -> scalar_text r.
Proof.
  unfold match_number. intros H Hs.
  assert (Hm : scalar_text (snd (strip_minus s))).
  { unfold strip_minus. destruct s as [|c t]; [constructor|].
    destruct (c =? 45); cbn [snd]; [now inversion Hs | exact Hs]. }
  destruct (strip_minus s) as [neg s1]. cbn [snd] in Hm.
  unfold int_part in H. destruct s1 as [|c s2]; [discriminate|].
  inversion Hm as [|? ? _ Hs2]; subst.
  destruct (c =? 48).
  - destruct (has_frac s2 || has_exp s2); [discriminate|].
    now inversion H; subst.
  - destruct (is_digit c); [|discriminate].
    pose proof (scan_digits_scalar s2 (c - 48) Hs2) as Hl.
    destruct (scan_digits (c - 48) s2) as [n rest]. cbn [snd] in Hl.
    destruct (has_frac rest || has_exp rest); [discriminate|].
    now inversion H; subst.
Qed.

Lemma unescape_scalar e c : unescape e = Some c -> scalar c = true.
Proof.
  unfold unescape.
  repeat match goal with
         | |- context [if ?b then _ else _] => destruct b
         end; intros H; inversion H; reflexivity.
Qed.

Lemma surrogate_pair_scalar uni uni2 :
  is_high_surrogate uni = true -> is_low_surrogate uni2 = true ->
  scalar (65536 + ((uni - 55296) * 1024 + (uni2 - 56320))) = true.
Proof.
  unfold is_high_surrogate, is_low_surrogate.
  rewrite !andb_true_iff, !N.leb_le. intros [H1 H2] [H3 H4].
  apply scalar_cases. lia.
Qed.

Lemma not_surrogate_scalar uni :
  uni < 65536 -> is_high_surrogate uni = false ->
  is_low_surrogate uni = false -> scalar uni = true.
Proof.
  unfold scalar. intros H -> ->. cbn [negb].
  rewrite !andb_true_r. apply N.ltb_lt. lia.
Qed.

Lemma scanstring_scalar f : forall s acc t r,
  scalar_text s -> scalar_text acc ->
  scanstring f s acc = POk (t, r) ->
  scalar_text t /\ scalar_text r.
Proof.
  induction f as [|f IH]; intros s acc t r Hs Hacc; [discriminate|].
  cbn [scanstring].
  destruct s as [|c s1]; [discriminate|].
  inversion Hs as [|? ? Hc Hs1]; subst.
  destruct (c =? 34).
  { intros H. inversion H; subst. split; [now apply Forall_rev | exact Hs1]. }
  destruct (c =? 92).
  - destruct s1 as [|e s2]; [discriminate|].
    inversion Hs1 as [|? ? He Hs2]; subst.
    destruct (e =? 117).
    + destruct (decode_uXXXX s2) as [[uni s3]|] eqn:E1; [|discriminate].
      destruct (decode_uXXXX_scalar _ _ _ E1 Hs2) as [Hs3 Huni].
      destruct (is_high_surrogate uni) eqn:Hh.
      * destruct (strip_prefix [92; 117] s3) as [s4|] eqn:E2; [|discriminate].
        apply strip_prefix_scalar in E2; [|exact Hs3].
        destruct (decode_uXXXX s4) as [[uni2 s5]|] eqn:E3; [|discriminate].
        destruct (decode_uXXXX_scalar _ _ _ E3 E2) as [Hs5 _].
        destruct (is_low_surrogate uni2) eqn:Hl; [|discriminate].
        apply IH; [exact Hs5|].
        constructor; [now apply surrogate_pair_scalar | exact Hacc].
      * destruct (is_low_surrogate uni) eqn:Hl; [discriminate|].
        apply IH; [exact Hs3|].
        constructor; [now apply not_surrogate_scalar | exact Hacc].
    + destruct (unescape e) as [c'|] eqn:Eu; [|discriminate].
      apply IH; [exact Hs2|].
      constructor; [now apply (unescape_scalar e) | exact Hacc].
  - destruct (c <? 32); [discriminate|].
    apply IH; [exact Hs1 | now constructor].
Qed.

Lemma scan_once_wf_step f :
  array_items_wf f -> object_items_wf f -> scan_once_wf (S f).
Proof.
  intros IHa IHo s v r Hs. cbn [scan_once].
  destruct s as [|c s1]; [discriminate|].
  inversion Hs as [|? ? Hc Hs1]; subst.
  destruct (c =? 34).
  { destruct (scanstring f s1 []) as [[t r']| | |] eqn:E; try discriminate.
    apply scanstring_scalar in E; [|exact Hs1 | constructor].
    intros H. inversion H; subst. split; [now constructor | tauto]. }
  destruct (c =? 123).
  { pose proof (skip_ws_scalar s1 Hs1) as Hw.
    destruct (skip_ws s1) as [|c' r']; [discriminate|].
    inversion Hw; subst.
    destruct (c' =? 125).
    { intros H. inversion H; subst. split; [repeat constructor | assumption]. }
    destruct (c' =? 34); [|discriminate].
    apply IHo; [assumption | constructor]. }
  destruct (c =? 91).
  { pose proof (skip_ws_scalar s1 Hs1) as Hw.
    destruct (skip_ws s1) as [|c' r']; [discriminate|].
    destruct (c' =? 93).
    { intros H. inversion H; subst. inversion Hw; subst.
      split; [repeat constructor | assumption]. }
    apply IHa; [assumption | constructor]. }
  destruct (strip_prefix [110; 117; 108; 108] (c :: s1)) as [r0|] eqn:E1.
  { apply strip_prefix_scalar in E1; [|exact Hs].
    intros H. inversion H; subst. split; [constructor | assumption]. }
  destruct (strip_prefix [116; 114; 117; 101] (c :: s1)) as [r0|] eqn:E2.
  { apply strip_prefix_scalar in E2; [|exact Hs].
    intros H. inversion H; subst. split; [constructor | assumption]. }
  destruct (strip_prefix [102; 97; 108; 115; 101] (c :: s1)) as [r0|] eqn:E3.
  { apply strip_prefix_scalar in E3; [|exact Hs].
    intros H. inversion H; subst. split; [constructor | assumption]. }
  destruct (match_number (c :: s1)) as [[z r']| | |] eqn:E4; try discriminate.
  - apply match_number_scalar in E4; [|exact Hs].
    intros H. inversion H; subst. split; [constructor | assumption].
  - match goal with
    | |- context [if ?b then _ else _] => destruct b
    end; discriminate.
Qed.

Lemma array_items_wf_step f :
  scan_once_wf f -> array_items_wf f -> array_items_wf (S f).
Proof.
  intros IHs IHa s acc v r Hs Hacc. rewrite array_items_eq.
  destruct (scan_once f s) as [[x r1]| | |] eqn:E; try discriminate.
  apply IHs in E; [|exact Hs]. destruct E as [Hx Hr1].
  pose proof (skip_ws_scalar r1 Hr1) as Hw.
  destruct (skip_ws r1) as [|c r']; [discriminate|].
  inversion Hw as [|? ? _ Hr']; subst.
  destruct (c =? 93).
  { intros H. inversion H; subst. split; [|assumption]. constructor.
    change (rev acc ++ [x]) with (rev (x :: acc)).
    apply Forall_rev. now constructor. }
  destruct (c =? 44); [|discriminate].
  apply IHa; [now apply skip_ws_scalar | now constructor].
Qed.

Lemma object_items_wf_step f :
  scan_once_wf f -> object_items_wf f -> object_items_wf (S f).
Proof.
  intros IHs IHo s acc v r Hs Hacc. rewrite object_items_eq.
  destruct (scanstring f s []) as [[k r0]| | |] eqn:Ek; try discriminate.
  apply scanstring_scalar in Ek; [|exact Hs | constructor].
  destruct Ek as [Hk Hr0].
  pose proof (skip_ws_scalar r0 Hr0) as Hw0.
  destruct (skip_ws r0) as [|c r1]; [discriminate|].
  inversion Hw0 as [|? ? _ Hr1]; subst.
  destruct (c =? 58); [|discriminate].
  destruct (scan_once f (skip_ws r1)) as [[x r2]| | |] eqn:E;
    try discriminate.
  apply IHs in E; [|now apply skip_ws_scalar]. destruct E as [Hx Hr2].
  pose proof (skip_ws_scalar r2 Hr2) as Hw2.
  destruct (skip_ws r2) as [|c' r3]; [discriminate|].
  inversion Hw2 as [|? ? _ Hr3]; subst.
  assert (Hkx : Forall wf_pair ((k, x) :: acc)).
  { constructor; [split; assumption | exact Hacc]. }
  destruct (c' =? 125).
  { intros H. inversion H; subst. split; [|assumption].
    apply dict_of_pairs_wf.
    change (rev acc ++ [(k, x)]) with (rev ((k, x) :: acc)).
    now apply Forall_rev. }
  destruct (c' =? 44); [|discriminate].
  pose proof (skip_ws_scalar r3 Hr3) as Hw3.
  destruct (skip_ws r3) as [|q r4]; [discriminate|].
  inversion Hw3 as [|? ? _ Hr4]; subst.
  destruct (q =? 34); [|discriminate].
  apply IHo; assumption.
Qed.

Lemma scan_wf f : scan_once_wf f /\ array_items_wf f /\ object_items_wf f.
Proof.
  induction f as [|f (IHs & IHa & IHo)].
  - split; [|split];
      [intros s v r _ H | intros s acc v r _ _ H | intros s acc v r _ _ H];
      discriminate.
  - split; [|split].
    + now apply scan_once_wf_step.
    + now apply array_items_wf_step.
    + now apply object_items_wf_step.
Qed.

Lemma json_loads_wf s v :
  scalar_text s -> json_loads s = POk v -> wf_value v.
Proof.
  intros Hs. unfold json_loads. destruct (has_bom s); [discriminate|].
  destruct (scan_once (2 * length s + 2) (skip_ws s)) as [[x r]| | |] eqn:E;
    try discriminate.
  destruct (skip_ws r); [|discriminate].
  intros H. inversion H; subst.
  destruct (scan_wf (2 * length s + 2)) as [Hw _].
  apply Hw in E; [tauto | now apply skip_ws_scalar].
Qed.

(** What the strict utf-8 decoder returns holds no surrogate. *)
Lemma utf8_decode_scalar n : forall bs t,
  (length bs <= n)%nat -> utf8_decode bs = Some t -> scalar_text t.
Proof.
  induction n as [|n IH]; intros bs t Hn.
  { destruct bs; [|cbn in Hn; lia]. intros H. inversion H. constructor. }
  destruct bs as [|b0 r0]; [intros H; inversion H; constructor|].
  cbn [length] in Hn. cbn [utf8_decode]. unfold in_range.
  assert (Hcons : forall c r,
             (length r <= n)%nat -> scalar c = true ->
             option_map (cons c) (utf8_decode r) = Some t -> scalar_text t).
  { intros c r Hr Hc H. destruct (utf8_decode r) as [t'|] eqn:E;
      [|discriminate].
    inversion H; subst. constructor; [exact Hc | now apply (IH r)]. }
  destruct (N.ltb_spec b0 128) as [H0|H0].
  { apply Hcons; [lia | apply ascii_scalar; lia]. }
  destruct ((194 <=? b0) && (b0 <=? 223)) eqn:E2.
  { apply andb_true_iff in E2. rewrite !N.leb_le in E2.
    destruct r0 as [|b1 r1]; [discriminate|].
    destruct ((128 <=? b1) && (b1 <=? 191)) eqn:C1; [|discriminate].
    apply andb_true_iff in C1. rewrite !N.leb_le in C1.
    apply Hcons; [cbn [length] in Hn; lia | apply scalar_cases; lia]. }
  destruct ((224 <=? b0) && (b0 <=? 239)) eqn:E3.
  { apply andb_true_iff in E3. rewrite !N.leb_le in E3.
    destruct r0 as [|b1 [|b2 r2]]; try discriminate.
    match goal with
    | |- (if ?b then _ else _) = _ -> _ => destruct b eqn:C
    end; [|discriminate].
    rewrite !andb_true_iff, !N.leb_le in C.
    destruct C as [[C1 C1'] [C2 C2']].
    apply Hcons; [cbn [length] in Hn; lia|]. apply scalar_cases.
    destruct (N.eqb_spec b0 224), (N.eqb_spec b0 237); lia. }
  destruct ((240 <=? b0) && (b0 <=? 244)) eqn:E4; [|discriminate].
  apply andb_true_iff in E4. rewrite !N.leb_le in E4.
  destruct r0 as [|b1 [|b2 [|b3 r3]]]; try discriminate.
  match goal with
  | |- (if ?b then _ else _) = _ -> _ => destruct b eqn:C
  end; [|discriminate].
  rewrite !andb_true_iff, !N.leb_le in C.
  destruct C as [[[C1 C1'] [C2 C2']] [C3 C3']].
  apply Hcons; [cbn [length] in Hn; lia|]. apply scalar_cases.
  destruct (N.eqb_spec b0 240), (N.eqb_spec b0 244); lia.
Qed.

Lemma collection_of_wf f v : collection_of f = Some v -> wf_value v.
Proof.
  unfold collection_of. destruct f as [c|].
  - destruct (utf8_decode c) as [text|] eqn:Ed; [|discriminate].
    apply (utf8_decode_scalar (length c)) in Ed; [|lia].
    destruct (json_loads text) as [x| | |] eqn:E; intros H; inversion H; subst.
    + now apply json_loads_wf in E.
    + repeat constructor.
  - intros H. inversion H; subst. repeat constructor.
Qed.

(** ** add *)

Lemma prompt_lines_answers label lines : forall out a rest,
  answers lines = a :: rest ->
  exists lines' extra,
    prompt_lines label lines out = (Ok a, lines', out ++ extra)
    /\ answers lines' = rest.
Proof.
  induction lines as [|l ls IH]; intros out a rest H; [discriminate|].
  destruct l as [|c l]; cbn [answers filter prompt_lines] in *.
  - destruct (IH (out ++ [Prompt label]) a rest H) as (ls' & extra & Hp & Ha).
    exists ls', (Prompt label :: extra). split; [|exact Ha].
    rewrite Hp. now rewrite <- app_assoc.
  - inversion H; subst. exists ls, [Prompt label]. split; reflexivity.
Qed.

Lemma typer_prompt_ok label w a rest :
  answers (stdin w) = a :: rest ->
  exists lines' extra,
    typer_prompt label w
    = (Ok a, mkWorld (file w) lines' (rng w) (stdout w ++ extra))
    /\ answers lines' = rest.
Proof.
  intros H. unfold typer_prompt.
  destruct (prompt_lines_answers label (stdin w) (stdout w) a rest H)
    as (ls' & extra & -> & Ha).
  exists ls', extra. split; [reflexivity | exact Ha].
Qed.

Lemma NoDup_snoc_fresh (ids : list Z) (new_id : Z) :
  Forall (fun z => (z < new_id)%Z) ids -> NoDup ids ->
  NoDup (ids ++ [new_id]).
Proof.
  intros Hlt Hnd. induction Hnd as [|z ids Hz Hnd IH]; cbn.
  - constructor; [intros [] | constructor].
  - inversion Hlt as [|? ? Hzn Hlt']; subst.
    constructor; [|now apply IH].
    intros Hin. apply in_app_or in Hin. destruct Hin as [Hin | [Heq | []]].
    + now apply Hz.
    + lia.
Qed.





(** ** The rounds of play *)

Lemma play_round_step lower quote rest i n score w line lines d latin
  en au wo :
  quote = VDict d ->
  dict_get d (u "latin_text") = Some latin ->
  dict_get d (u "english_translation") = Some (VStr en) ->
  dict_get d (u "author") = Some (VStr au) ->
  dict_get d (u "work") = Some (VStr wo) ->
  stdin w = line :: lines ->
  let mode := mode_of (rng w) in
  let answer := match mode with
                | Translate => en
                | Author => au
                | Work => wo
                end in
  let correct := answers_match lower line answer in
  play_rounds lower (quote :: rest) i n score w
  = play_rounds lower rest (i + 1) n
      (if correct then score + 1 else score)%Z
      (mkWorld (file w) lines (tl (rng w))
         (stdout w ++ [RoundHeader (i + 1) n; Question mode latin;
                       AnswerPrompt;
                       if correct then Correct (VStr answer)
                       else Incorrect (VStr answer)])).
Proof.
  intros -> Hl He Ha Hw Hin.
  destruct w as [f sin rg out]. cbn [file stdin rng stdout] in *. subst sin.
  cbn [play_rounds].
  unfold bind, print, random_choice_mode, randbelow, lift, input, ret, bind.
  cbn [file stdin rng stdout subscript].
  assert (Hmode : forall m : game_mode,
             dict_get d match m with
                        | Translate => u "english_translation"
                        | Author => u "author"
                        | Work => u "work"
                        end
             = Some (VStr match m with
                          | Translate => en
                          | Author => au
                          | Work => wo
                          end)).
  { intros [| |]; assumption. }
  assert (Hm : exists m, mode_of rg = m
                         /\ nth (N.to_nat match rg with
                                           | [] => 0
                                           | x :: _ => x mod 3
                                           end) game_modes Work = m).
  { destruct rg; eexists; split; reflexivity. }
  destruct Hm as (m & -> & Hm).
  destruct rg as [|x t]; cbn [tl file stdin rng stdout];
    rewrite Hm, Hl, Hmode; cbn [as_str];
    match goal with
    | |- context [answers_match ?l ?a ?b] => destruct (answers_match l a b)
    end; cbn [file stdin rng stdout]; rewrite <- !app_assoc; reflexivity.
Qed.

Lemma answers_match_iff lower user_input answer :
  answers_match lower user_input answer = true
  <-> lower (strip user_input) = lower (strip answer).
Proof. unfold answers_match. apply str_eqb_eq. Qed.



Lemma asked_app a b : asked (a ++ b) = asked a ++ asked b.
Proof. unfold asked. apply flat_map_app. Qed.

Lemma play_rounds_ok lower gq : forall i n score w,
  Forall playable gq ->
  (length gq <= length (stdin w))%nat ->
  exists score' t out,
    play_rounds lower gq i n score w
    = (Ok score',
       mkWorld (file w) (skipn (length gq) (stdin w)) t (stdout w ++ out))
    /\ asked out = map latin_of gq.
Proof.
  induction gq as [|q rest IH]; intros i n score w Hp Hin.
  - exists score, (rng w), []. destruct w. cbn.
    now rewrite app_nil_r.
  - inversion Hp as [|? ? (d & latin & en & au & wo & Hq & Hl & He & Ha & Hw)
                        Hrest]; subst.
    destruct (stdin w) as [|line lines] eqn:Hs; [cbn in Hin; lia|].
    rewrite (play_round_step lower (VDict d) rest i n score w line lines d
               latin en au wo eq_refl Hl He Ha Hw Hs).
    match goal with
    | |- context [play_rounds lower rest ?i' n ?s' ?w'] =>
        destruct (IH i' n s' w' Hrest) as (score' & t & out & Hr & Hask);
          [cbn in Hin |- *; lia|]; rewrite Hr
    end.
    cbn [file stdin stdout length skipn].
    eexists score', t, _. split.
    + rewrite <- app_assoc. reflexivity.
    + rewrite asked_app, Hask. cbn [map].
      unfold latin_of at 2. cbn [subscript]. rewrite Hl.
      match goal with
      | |- context [if ?b then _ else _] => destruct b
      end; reflexivity.
Qed.

Lemma subscript_error v k e : subscript v k = Raise e -> e = DataError.
Proof.
  destruct v as [ | | | | |d]; cbn; try congruence.
  destruct (dict_get d k); congruence.
Qed.

Lemma as_str_error v e : as_str v = Raise e -> e = DataError.
Proof. destruct v; cbn; congruence. Qed.

Lemma nve_bind {A B : Type} (c : M A) (k : A -> M B) :
  no_value_error c -> (forall a, no_value_error (k a)) ->
  no_value_error (bind c k).
Proof.
  intros Hc Hk w. unfold bind. specialize (Hc w).
  destruct (c w) as [[a|e] w']; [apply Hk|].
  cbn [fst] in *. intros H. apply Hc. congruence.
Qed.

Lemma nve_ret {A : Type} (a : A) : no_value_error (ret a).
Proof. intros w. cbn. discriminate. Qed.

Lemma nve_print e : no_value_error (print e).
Proof. intros w. cbn. discriminate. Qed.

Lemma nve_input e : no_value_error (input e).
Proof. intros w. unfold input. destruct (stdin w); cbn; discriminate. Qed.

Lemma nve_randbelow n : no_value_error (randbelow n).
Proof. intros w. unfold randbelow. destruct (rng w); cbn; discriminate. Qed.

Lemma nve_lift {A : Type} (r : result A) :
  r <> Raise ValueError -> no_value_error (lift r).
Proof. intros H w. exact H. Qed.

Lemma play_rounds_no_value_error lower gq : forall i n score,
  no_value_error (play_rounds lower gq i n score).
Proof.
  induction gq as [|q rest IH]; intros i n score; cbn [play_rounds].
  - apply nve_ret.
  - apply nve_bind; [apply nve_print | intros _].
    apply nve_bind; [|intros m].
    { apply nve_bind; [apply nve_randbelow | intros j; apply nve_ret]. }
    apply nve_bind; [|intros latin].
    { apply nve_lift. intros H. apply subscript_error in H. discriminate. }
    apply nve_bind; [|intros answer].
    { apply nve_lift. intros H. apply subscript_error in H. discriminate. }
    apply nve_bind; [apply nve_print | intros _].
    apply nve_bind; [apply nve_input | intros line].
    apply nve_bind; [|intros a].
    { apply nve_lift. intros H. apply as_str_error in H. discriminate. }
    destruct (answers_match lower line a);
      (apply nve_bind; [apply nve_print | intros _; apply IH]).
Qed.

(** ** play *)

Lemma play_unfold lower rounds w q qs :
  collection_of (file w) = Some (VList (q :: qs)) ->
  play lower rounds w
  = (let num_rounds := Z.min rounds (Z.of_nat (length (q :: qs))) in
     game_quotes <- random_sample (VList (q :: qs)) num_rounds ;;
     score <- play_rounds lower game_quotes 0 num_rounds 0 ;;
     print GameOver ;;
     print (FinalScore score num_rounds))
      (mkWorld (file w) (stdin w) (rng w) (stdout w ++ [Welcome])).
Proof.
  intros H. unfold play. unfold bind at 1.
  rewrite (load_quotes_spec w _ H).
  rewrite (collection_nonempty _ _ H) by reflexivity.
  reflexivity.
Qed.




(** C2, amended: for every [rounds >= 0], zero and huge values included,
    [play] on a collection that is not empty never raises [ValueError]:
    [random.sample] is called with [min rounds k], succeeds, and returns
    that many quotes, at most [k]. *)
Theorem play_clamps_nonnegative_rounds
  (lower : str -> str) (rounds : Z) (w : world) (qs : list value) :
  collection_of (file w) = Some (VList qs) ->
  qs <> [] ->
  (0 <= rounds)%Z ->
  fst (play lower rounds w) <> Raise ValueError
  /\ exists game_quotes t,
       random_sample (VList qs) (Z.min rounds (Z.of_nat (length qs)))
         (mkWorld (file w) (stdin w) (rng w) (stdout w ++ [Welcome]))
       = (Ok game_quotes,
          mkWorld (file w) (stdin w) t (stdout w ++ [Welcome]))
       /\ length game_quotes
          = Z.to_nat (Z.min rounds (Z.of_nat (length qs)))
       /\ (length game_quotes <= length qs)%nat.
Proof.
  intros Hc Hne Hr.
  destruct qs as [|q qs']; [easy|].
  rewrite (play_unfold lower rounds w q qs' Hc).
  set (qs := q :: qs') in *.
  set (n := Z.min rounds (Z.of_nat (length qs))) in *.
  set (w1 := mkWorld _ _ _ _). cbv zeta.
  destruct (random_sample_spec qs n w1) as (gq & t & Hs & Hlen & _); [lia|].
  split.
  - unfold bind at 1. rewrite Hs.
    apply nve_bind; [apply play_rounds_no_value_error | intros score].
    apply nve_bind; [apply nve_print | intros _; apply nve_print].
  - exists gq, t. split; [exact Hs|]. split; [exact Hlen | lia].
Qed.

Lemma play_clamps_nonnegative_rounds_witness :
  collection_of (file play_world) = Some (VList [caesar; cicero])
  /\ [caesar; cicero] <> []
  /\ (0 <= 1000000)%Z
  /\ fst (play ascii_lower 1000000 play_world) <> Raise ValueError
  /\ exists game_quotes t,
       random_sample (VList [caesar; cicero])
         (Z.min 1000000 (Z.of_nat (length [caesar; cicero])))
         (mkWorld (file play_world) (stdin play_world) (rng play_world)
            (stdout play_world ++ [Welcome]))
       = (Ok game_quotes,
          mkWorld (file play_world) (stdin play_world) t
            (stdout play_world ++ [Welcome]))
       /\ length game_quotes
          = Z.to_nat (Z.min 1000000 (Z.of_nat (length [caesar; cicero])))
       /\ (length game_quotes <= length [caesar; cicero])%nat.
Proof.
  assert (H1 : collection_of (file play_world) = Some (VList [caesar; cicero]))
    by reflexivity.
  assert (H2 : [caesar; cicero] <> []) by discriminate.
  assert (H3 : (0 <= 1000000)%Z) by lia.
  repeat (split; [assumption|]).
  exact (play_clamps_nonnegative_rounds ascii_lower 1000000 play_world
           [caesar; cicero] H1 H2 H3).
Defined.

(** C2 as stated fails below zero: [--rounds -3] on one quote makes
    [random.sample] raise [ValueError]. *)
Lemma play_rounds_below_zero_value_error :
  fst (play ascii_lower (-3)
         (mkWorld (file_of (VList [caesar])) [u "x"] [] []))
  = Raise ValueError.
Proof. reflexivity. Qed.

(** ** list *)

Lemma list_quote_ok q w :
  listable q ->
  list_quote q w
  = (Ok tt,
     mkWorld (file w) (stdin w) (rng w) (stdout w ++ quote_lines q)).
Proof.
  intros (d & id & -> & Hid).
  unfold list_quote, bind, lift, print, ret, field_or_NA, NA.
  cbn [subscript py_get quote_lines file stdin rng stdout].
  unfold field_or_NA. rewrite Hid.
  destruct (dict_get d (u "latin_text")),
    (dict_get d (u "english_translation")),
    (dict_get d (u "author")), (dict_get d (u "work"));
    cbn [file stdin rng stdout];
    (destruct (dict_get d (u "notes")) as [notes|];
     [destruct (truthy notes)|]);
    cbn [truthy file stdin rng stdout]; rewrite <- !app_assoc; reflexivity.
Qed.

Lemma list_loop_ok qs : forall w,
  Forall listable qs ->
  list_loop qs w
  = (Ok tt,
     mkWorld (file w) (stdin w) (rng w)
       (stdout w ++ flat_map quote_lines qs)).
Proof.
  induction qs as [|q qs IH]; intros w H.
  - cbn. now rewrite app_nil_r, world_eta.
  - inversion H as [|? ? Hq Hqs]; subst.
    cbn [list_loop flat_map]. unfold bind.
    rewrite (list_quote_ok q w Hq), (IH _ Hqs).
    cbn [file stdin rng stdout]. now rewrite <- app_assoc.
Qed.

(** C9, amended: for every stored collection whose quotes each have an id,
    the other fields missing or not, [list] ends normally after printing
    every quote: the id, then the Latin text, translation, author and work
    with "N/A" for each one that is missing, then the notes unless they are
    absent or empty. *)
Theorem list_prints_every_quote (w : world) (qs : list value) :
  collection_of (file w) = Some (VList qs) ->
  Forall listable qs ->
  list_quotes w
  = (Ok tt,
     mkWorld (created (file w)) (stdin w) (rng w) (stdout w ++ listing qs))
  /\ (forall d k, dict_get d k = None -> field_or_NA d k = VStr (u "N/A"))
  /\ (forall d,
        dict_get d (u "notes") = None
        \/ dict_get d (u "notes") = Some (VStr []) ->
        forall v, ~ In (ListNotes v) (quote_lines (VDict d))).
Proof.
  intros Hc Hl. split; [|split].
  - unfold list_quotes. unfold bind at 1.
    rewrite (load_quotes_spec w _ Hc).
    destruct qs as [|q qs']; [reflexivity|].
    cbn [truthy negb]. unfold bind, print, lift.
    cbn [py_iter file stdin rng stdout].
    rewrite (list_loop_ok (q :: qs') _ Hl).
    cbn [file stdin rng stdout listing]. now rewrite <- !app_assoc.
  - intros d k H. unfold field_or_NA. now rewrite H.
  - intros d H v. cbn [quote_lines].
    destruct H as [-> | ->]; cbn; intuition discriminate.
Qed.

Lemma list_prints_every_quote_witness :
  collection_of (file list_world) = Some (VList [caesar; VDict [(u "id", VInt 9)]])
  /\ Forall listable [caesar; VDict [(u "id", VInt 9)]]
  /\ list_quotes list_world
     = (Ok tt,
        mkWorld (created (file list_world)) (stdin list_world)
          (rng list_world)
          (stdout list_world
           ++ listing [caesar; VDict [(u "id", VInt 9)]])).
Proof.
  assert (H1 : collection_of (file list_world)
               = Some (VList [caesar; VDict [(u "id", VInt 9)]]))
    by reflexivity.
  assert (H2 : Forall listable [caesar; VDict [(u "id", VInt 9)]]).
  { repeat constructor; do 2 eexists; split; reflexivity. }
  split; [exact H1|]. split; [exact H2|].
  exact (proj1 (list_prints_every_quote list_world
                  [caesar; VDict [(u "id", VInt 9)]] H1 H2)).
Defined.

(** C9 as stated fails when the missing field is the id: [quote['id']]
    raises [KeyError] after the header, before the quote is printed. *)
Lemma list_quote_without_id_raises :
  list_quotes
    (mkWorld (file_of (VList [VDict [(u "latin_text", VStr (u "Veni"))]]))
       [] [] [])
  = (Raise DataError,
     mkWorld (file_of (VList [VDict [(u "latin_text", VStr (u "Veni"))]]))
       [] [] [ListHeader]).
Proof. reflexivity. Qed.

(** ** What a computation leaves alone *)

Lemma preserves_bind {A B C : Type} (proj : world -> C) (c : M A)
  (k : A -> M B) :
  preserves proj c -> (forall a, preserves proj (k a)) ->
  preserves proj (bind c k).
Proof.
  intros Hc Hk w. unfold bind. specialize (Hc w).
  destruct (c w) as [[a|e] w1]; cbn [snd] in *; [|exact Hc].
  now rewrite Hk.
Qed.

Lemma preserves_ret {A B : Type} (proj : world -> B) (a : A) :
  preserves proj (ret a).
Proof. intros w. reflexivity. Qed.

Lemma preserves_raise {A B : Type} (proj : world -> B) (e : exn) :
  preserves proj (raise e : M A).
Proof. intros w. reflexivity. Qed.

Lemma preserves_lift {A B : Type} (proj : world -> B) (r : result A) :
  preserves proj (lift r).
Proof. intros w. reflexivity. Qed.

Lemma print_keeps e :
  preserves file (print e) /\ preserves stdin (print e)
  /\ preserves rng (print e).
Proof. repeat split. Qed.

Lemma input_keeps e : preserves file (input e) /\ preserves rng (input e).
Proof. split; intros w; unfold input; destruct (stdin w); reflexivity. Qed.

Lemma randbelow_keeps n :
  preserves file (randbelow n) /\ preserves stdin (randbelow n)
  /\ preserves stdout (randbelow n).
Proof.
  repeat split; intros w; unfold randbelow; destruct (rng w); reflexivity.
Qed.

Lemma typer_prompt_keeps label :
  preserves file (typer_prompt label) /\ preserves rng (typer_prompt label).
Proof.
  split; intros w; unfold typer_prompt;
    destruct (prompt_lines label (stdin w) (stdout w)) as [[r ls] out];
    reflexivity.
Qed.

Lemma load_quotes_keeps :
  (forall w, file (snd (load_quotes w)) = created (file w))
  /\ preserves stdin load_quotes /\ preserves rng load_quotes
  /\ preserves stdout load_quotes.
Proof.
  repeat split; intros [[c|] sin rg out]; unfold load_quotes;
    cbn [file]; try reflexivity;
    destruct (utf8_decode c) as [text|]; try reflexivity;
    destruct (json_loads text); reflexivity.
Qed.

(** X2: [load_quotes] can be run again without effect: a second call
    returns what the first returned and leaves the world as the first left
    it.  A file that exists is not modified by loading, whatever it holds
    and whether loading returns or raises; nothing is read from the console
    or printed. *)
Theorem load_quotes_idempotent :
  (forall w, load_quotes (snd (load_quotes w)) = load_quotes w)
  /\ (forall w content, file w = Some content -> snd (load_quotes w) = w).
Proof.
  split.
  - intros [[c|] sin rg out]; [|reflexivity].
    unfold load_quotes at 2. cbn [file].
    destruct (utf8_decode c) as [text|] eqn:Ed; cbn [snd].
    + destruct (json_loads text) eqn:Ej; cbn [snd];
        unfold load_quotes; cbn [file]; now rewrite Ed, Ej.
    + unfold load_quotes; cbn [file]; now rewrite Ed.
  - intros [f sin rg out] c H. cbn in H. subst f.
    unfold load_quotes. cbn [file].
    destruct (utf8_decode c) as [text|]; [|reflexivity].
    destruct (json_loads text); reflexivity.
Qed.

Lemma load_quotes_idempotent_witness :
  file (mkWorld (Some (u "{oops")) [u "x"] [3] []) = Some (u "{oops")
  /\ snd (load_quotes (mkWorld (Some (u "{oops")) [u "x"] [3] []))
     = mkWorld (Some (u "{oops")) [u "x"] [3] [].
Proof.
  split; [reflexivity|].
  exact (proj2 load_quotes_idempotent
           (mkWorld (Some (u "{oops")) [u "x"] [3] []) (u "{oops") eq_refl).
Defined.

Lemma utf8_decode_bom bs text :
  utf8_decode bs = Some text ->
  utf8_decode (byte_order_mark ++ bs) = Some (65279 :: text).
Proof. intros H. cbn. now rewrite H. Qed.

(** X3: a file that starts with a UTF-8 byte order mark is read as the
    empty collection, whatever follows the mark: [json.load] refuses the
    mark with [JSONDecodeError], which [load_quotes] catches.  The file is
    left as it is. *)
Theorem load_quotes_byte_order_mark (w : world) (bs : bytes) (text : str) :
  file w = Some (byte_order_mark ++ bs) ->
  utf8_decode bs = Some text ->
  load_quotes w = (Ok (VList []), w).
Proof.
  destruct w as [f sin rg out]. cbn [file]. intros -> Hd.
  unfold load_quotes. cbn [file].
  rewrite (utf8_decode_bom bs text Hd). reflexivity.
Qed.

Lemma load_quotes_byte_order_mark_witness :
  file (mkWorld (Some (byte_order_mark ++ u "[1, 2]")) [] [] [])
  = Some (byte_order_mark ++ u "[1, 2]")
  /\ utf8_decode (u "[1, 2]") = Some (u "[1, 2]")
  /\ json_loads (u "[1, 2]") = POk (VList [VInt 1; VInt 2])
  /\ load_quotes (mkWorld (Some (byte_order_mark ++ u "[1, 2]")) [] [] [])
     = (Ok (VList []),
        mkWorld (Some (byte_order_mark ++ u "[1, 2]")) [] [] []).
Proof.
  split; [reflexivity|]. split; [reflexivity|]. split; [reflexivity|].
  exact (load_quotes_byte_order_mark
           (mkWorld (Some (byte_order_mark ++ u "[1, 2]")) [] [] [])
           (u "[1, 2]") (u "[1, 2]") eq_refl eq_refl).
Defined.

(** ** add, further *)

Lemma answers_not_empty lines : Forall (fun a => a <> []) (answers lines).
Proof.
  unfold answers. apply Forall_forall. intros a Ha.
  apply filter_In in Ha. destruct Ha as [_ Ha].
  destruct a; [discriminate | discriminate].
Qed.

Lemma prompt_lines_abort label lines : forall out,
  answers lines = [] ->
  exists extra,
    prompt_lines label lines out = (Raise Abort, [], out ++ extra).
Proof.
  induction lines as [|l ls IH]; intros out H; cbn [prompt_lines].
  - now exists [Prompt label].
  - destruct l as [|c l]; cbn [answers filter] in H; [|discriminate].
    destruct (IH (out ++ [Prompt label]) H) as (extra & ->).
    exists (Prompt label :: extra). now rewrite <- app_assoc.
Qed.

Lemma typer_prompt_abort label w :
  answers (stdin w) = [] ->
  exists extra,
    typer_prompt label w
    = (Raise Abort, mkWorld (file w) [] (rng w) (stdout w ++ extra)).
Proof.
  intros H. unfold typer_prompt.
  destruct (prompt_lines_abort label (stdin w) (stdout w) H) as (extra & ->).
  now exists extra.
Qed.

(** One prompt of [add]: it aborts, or returns the next line that is not
    empty. *)
Lemma typer_prompt_cases label w :
  (answers (stdin w) = []
   /\ exists extra,
        typer_prompt label w
        = (Raise Abort, mkWorld (file w) [] (rng w) (stdout w ++ extra)))
  \/ (exists a rest lines' extra,
        answers (stdin w) = a :: rest
        /\ typer_prompt label w
           = (Ok a, mkWorld (file w) lines' (rng w) (stdout w ++ extra))
        /\ answers lines' = rest).
Proof.
  destruct (answers (stdin w)) as [|a rest] eqn:E.
  - left. split; [reflexivity|]. now apply typer_prompt_abort.
  - right. destruct (typer_prompt_ok label w a rest E) as (ls & extra & H & Hr).
    now exists a, rest, ls, extra.
Qed.

Lemma new_quote_wf a1 a2 a3 a4 a5 id :
  Forall scalar_text [a1; a2; a3; a4; a5] ->
  wf_value (new_quote a1 a2 a3 a4 a5 id).
Proof.
  intros H.
  inversion H as [|? ? H1 H']; subst. inversion H' as [|? ? H2 H'']; subst.
  inversion H'' as [|? ? H3 H3']; subst. inversion H3' as [|? ? H4 H4']; subst.
  inversion H4' as [|? ? H5 _]; subst.
  unfold new_quote. wf_tac; assumption.
Qed.

(** The whole of [add] when the five prompts are answered and the stored
    quotes have ids [get_next_id] accepts. *)
Lemma add_ok w qs a1 a2 a3 a4 a5 rest id :
  collection_of (file w) = Some (VList qs) ->
  answers (stdin w) = a1 :: a2 :: a3 :: a4 :: a5 :: rest ->
  Forall scalar_text [a1; a2; a3; a4; a5] ->
  get_next_id (VList qs) = Ok id ->
  exists content lines out,
    add w
    = (Ok tt,
       mkWorld (Some content) lines (rng w)
         (stdout w ++ out ++ [QuoteAdded id]))
    /\ answers lines = rest
    /\ file_of (VList (qs ++ [new_quote a1 a2 a3 a4 a5 id])) = Some content
    /\ collection_of (Some content)
       = Some (VList (qs ++ [new_quote a1 a2 a3 a4 a5 id])).
Proof.
  intros Hc E Hsc Hid.
  unfold add, bind, print. cbn [file stdin rng stdout].
  set (w1 := mkWorld _ _ _ _).
  destruct (typer_prompt_ok PLatinText w1 a1 _ E) as (l1 & e1 & -> & E1).
  set (w2 := mkWorld _ _ _ _).
  destruct (typer_prompt_ok PEnglishTranslation w2 a2 _ E1)
    as (l2 & e2 & -> & E2).
  set (w3 := mkWorld _ _ _ _).
  destruct (typer_prompt_ok PAuthor w3 a3 _ E2) as (l3 & e3 & -> & E3).
  set (w4 := mkWorld _ _ _ _).
  destruct (typer_prompt_ok PWork w4 a4 _ E3) as (l4 & e4 & -> & E4).
  set (w5 := mkWorld _ _ _ _).
  destruct (typer_prompt_ok PNotes w5 a5 _ E4) as (l5 & e5 & -> & E5).
  set (w6 := mkWorld _ _ _ _).
  rewrite (load_quotes_spec w6 (VList qs)) by exact Hc.
  unfold lift. rewrite Hid. cbn [py_append].
  change (VDict (dict_set _ (u "id") (VInt id)))
    with (new_quote a1 a2 a3 a4 a5 id).
  assert (Hwf : wf_value (VList (qs ++ [new_quote a1 a2 a3 a4 a5 id]))).
  { apply collection_of_wf in Hc. inversion Hc as [ | | | | l Hl | ]; subst.
    constructor. apply Forall_app. split; [exact Hl|].
    constructor; [|constructor]. now apply new_quote_wf. }
  destruct (file_of_wf _ Hwf) as (content & Hf & Hcol).
  unfold save_quotes. unfold file_of in Hf. rewrite Hf.
  cbn [file stdin rng stdout].
  exists content, l5,
    ([AddBanner; AddInstructions] ++ e1 ++ e2 ++ e3 ++ e4 ++ e5).
  split; [|split; [exact E5 | split; [exact Hf | exact Hcol]]].
  unfold w6, w5, w4, w3, w2, w1. cbn [file stdin rng stdout].
  now rewrite <- !app_assoc.
Qed.





(** ** Identifiers, further *)

Lemma as_number_error v e : as_number v = Raise e -> e = DataError.
Proof. destruct v; cbn; congruence. Qed.

Lemma ids_of_error qs : forall e, ids_of qs = Raise e -> e = DataError.
Proof.
  induction qs as [|q qs IH]; intros e; cbn [ids_of]; [discriminate|].
  destruct (subscript q (u "id")) as [v|e1] eqn:Es.
  - destruct (as_number v) as [z|e2] eqn:En.
    + destruct (ids_of qs) as [zs|e3]; [discriminate|].
      intros H. inversion H; subst. now apply IH.
    + intros H. inversion H; subst. now apply as_number_error in En.
  - intros H. inversion H; subst. now apply subscript_error in Es.
Qed.

Lemma ids_of_length qs : forall zs, ids_of qs = Ok zs -> length zs = length qs.
Proof.
  induction qs as [|q qs IH]; intros zs; cbn [ids_of].
  - intros H. now inversion H.
  - destruct (subscript q (u "id")) as [v|]; [|discriminate].
    destruct (as_number v) as [z|]; [|discriminate].
    destruct (ids_of qs) as [zs'|]; [|discriminate].
    intros H. inversion H; subst. cbn. now rewrite (IH zs').
Qed.

(** [get_next_id] raises for the shape of the data only: the [max] of an
    empty sequence does not occur, the empty collection is answered
    first. *)
Lemma get_next_id_error v e : get_next_id v = Raise e -> e = DataError.
Proof.
  unfold get_next_id. destruct (negb (truthy v)) eqn:Et; [discriminate|].
  destruct (py_iter v) as [qs|e1] eqn:Ei.
  - destruct (ids_of qs) as [[|z zs]|e2] eqn:Eids.
    + apply ids_of_length in Eids. destruct qs; [|discriminate Eids].
      destruct v as [ | | |[|c s]|[|x l]|[|kv d]]; cbn in Et, Ei;
        discriminate.
    + discriminate.
    + intros H. inversion H; subst. now apply ids_of_error in Eids.
  - destruct v; cbn in Ei; inversion Ei; intros H; now inversion H.
Qed.

Lemma ids_of_ok_iff qs :
  (exists zs, ids_of qs = Ok zs) <-> Forall numeric_id qs.
Proof.
  induction qs as [|q qs IH]; cbn [ids_of].
  - split; [constructor | now exists []].
  - split.
    + intros (zs & H). revert H.
      destruct (subscript q (u "id")) as [v|] eqn:Es; [|discriminate].
      destruct (as_number v) as [z|] eqn:En; [|discriminate].
      destruct (ids_of qs) as [zs'|]; [|discriminate].
      intros _. constructor; [|apply IH; now exists zs'].
      destruct q as [ | | | | |d]; cbn [subscript] in Es; try discriminate Es.
      destruct (dict_get d (u "id")) as [v'|] eqn:Eg; [|discriminate Es].
      inversion Es; subst. now exists d, v, z.
    + intros H. inversion H as [|? ? (d & v & z & -> & Hg & Hn) Hqs]; subst.
      apply IH in Hqs. destruct Hqs as (zs & ->).
      cbn [subscript]. rewrite Hg, Hn. now exists (z :: zs).
Qed.



(** ** add when something goes wrong *)

(** X7: when the input ends before each of the five prompts has got a
    line that is not empty, [add] raises [Abort] with all the input
    consumed; the file is not touched (nor created when absent) and no
    random number is drawn. *)
Theorem add_aborts_at_end_of_input (w : world) :
  (length (answers (stdin w)) < 5)%nat ->
  exists out,
    add w
    = (Raise Abort, mkWorld (file w) [] (rng w) (stdout w ++ out)).
Proof.
  intros Hlt. unfold add, bind, print. cbn [file stdin rng stdout].
  prompt_step typer_prompt_cases Hlt E1 Er1.
  prompt_step typer_prompt_cases Hlt E2 Er2.
  prompt_step typer_prompt_cases Hlt E3 Er3.
  prompt_step typer_prompt_cases Hlt E4 Er4.
  prompt_step typer_prompt_cases Hlt E5 Er5.
  lia.
Qed.

Lemma add_aborts_at_end_of_input_witness :
  (length (answers (stdin (mkWorld None [u "Veni"; []; u "I came"] [] [])))
   < 5)%nat
  /\ exists out,
       add (mkWorld None [u "Veni"; []; u "I came"] [] [])
       = (Raise Abort, mkWorld None [] [] ([] ++ out)).
Proof.
  split; [vm_compute; lia|].
  apply (add_aborts_at_end_of_input
           (mkWorld None [u "Veni"; []; u "I came"] [] [])).
  vm_compute; lia.
Defined.



(** ** add, then add or list *)

Lemma get_next_id_snoc qs ids q id :
  Forall2 has_id qs ids ->
  get_next_id (VList qs) = Ok id ->
  has_id q id ->
  get_next_id (VList (qs ++ [q])) = Ok (id + 1)%Z.
Proof.
  intros Hids Hid Hq.
  destruct (get_next_id_fresh qs ids Hids) as (id' & Hid' & Hlt).
  assert (id' = id) by congruence. subst id'.
  assert (H2 : Forall2 has_id (qs ++ [q]) (ids ++ [id])).
  { apply Forall2_app; [exact Hids | now constructor]. }
  destruct (qs ++ [q]) as [|q0 qs'] eqn:E.
  { symmetry in E. now apply app_cons_not_nil in E. }
  destruct (get_next_id_max q0 qs' _ H2) as (m & Hin & Hle & ->).
  f_equal. apply in_app_or in Hin.
  assert (Hid_le : (id <= m)%Z).
  { rewrite Forall_forall in Hle. apply Hle, in_or_app. right. now left. }
  destruct Hin as [Hin | [<- | []]]; [|reflexivity].
  rewrite Forall_forall in Hlt. apply Hlt in Hin. lia.
Qed.

Lemma new_quote_has_id a1 a2 a3 a4 a5 id :
  has_id (new_quote a1 a2 a3 a4 a5 id) id.
Proof. eexists. split; reflexivity. Qed.

Lemma has_id_listable q z : has_id q z -> listable q.
Proof. intros (d & -> & H). now exists d, (VInt z). Qed.

Lemma Forall2_has_id_listable qs ids :
  Forall2 has_id qs ids -> Forall listable qs.
Proof.
  induction 1 as [|q z qs ids Hq _ IH]; constructor;
    [now apply (has_id_listable q z) | exact IH].
Qed.

Lemma list_quotes_ok w qs :
  collection_of (file w) = Some (VList qs) ->
  Forall listable qs ->
  list_quotes w
  = (Ok tt,
     mkWorld (created (file w)) (stdin w) (rng w) (stdout w ++ listing qs)).
Proof.
  intros Hc Hl. unfold list_quotes. unfold bind at 1.
  rewrite (load_quotes_spec w _ Hc).
  destruct qs as [|q qs']; [reflexivity|].
  cbn [truthy negb]. unfold bind, print, lift.
  cbn [py_iter file stdin rng stdout].
  rewrite (list_loop_ok (q :: qs') _ Hl).
  cbn [file stdin rng stdout listing]. now rewrite <- !app_assoc.
Qed.



Lemma scalar_text_ascii s : is_ascii s -> scalar_text s.
Proof.
  unfold is_ascii, scalar_text. apply Forall_impl. intros c. apply ascii_scalar.
Qed.



(** X11: when the file holds a JSON value that is not an array (an
    object, a number, a string, [null]), [add] asks its five questions and
    then raises ([TypeError] in [get_next_id], or [AttributeError] at
    [append]); the file is left as it is. *)
Theorem add_refuses_a_store_that_is_no_list (w : world) (v : value)
  (a1 a2 a3 a4 a5 : str) (rest : list str) :
  collection_of (file w) = Some v ->
  (forall l, v <> VList l) ->
  answers (stdin w) = a1 :: a2 :: a3 :: a4 :: a5 :: rest ->
  exists w',
    add w = (Raise DataError, w')
    /\ file w' = file w.
Proof.
  intros Hc Hv E.
  unfold add, bind, print. cbn [file stdin rng stdout].
  set (w1 := mkWorld _ _ _ _).
  destruct (typer_prompt_ok PLatinText w1 a1 _ E) as (l1 & e1 & -> & E1).
  set (w2 := mkWorld _ _ _ _).
  destruct (typer_prompt_ok PEnglishTranslation w2 a2 _ E1)
    as (l2 & e2 & -> & E2).
  set (w3 := mkWorld _ _ _ _).
  destruct (typer_prompt_ok PAuthor w3 a3 _ E2) as (l3 & e3 & -> & E3).
  set (w4 := mkWorld _ _ _ _).
  destruct (typer_prompt_ok PWork w4 a4 _ E3) as (l4 & e4 & -> & E4).
  set (w5 := mkWorld _ _ _ _).
  destruct (typer_prompt_ok PNotes w5 a5 _ E4) as (l5 & e5 & -> & E5).
  set (w6 := mkWorld _ _ _ _).
  rewrite (load_quotes_spec w6 v) by exact Hc.
  assert (Hf : created (file w6) = file w).
  { destruct (file w) as [c|] eqn:Ef; [reflexivity|].
    cbn in Hc. inversion Hc. now destruct (Hv []). }
  unfold lift. destruct (get_next_id v) as [id|e] eqn:Eid.
  - destruct v as [ | | | |l| ]; cbn [py_append];
      try (eexists; split; [reflexivity | exact Hf]).
    now destruct (Hv l).
  - apply get_next_id_error in Eid. subst e.
    eexists; split; [reflexivity | exact Hf].
Qed.

Lemma add_refuses_a_store_that_is_no_list_witness :
  collection_of
    (file (mkWorld (Some (u "{}")) [u "a"; u "b"; u "c"; u "d"; u "e"] [] []))
  = Some (VDict [])
  /\ (forall l, VDict [] <> VList l)
  /\ exists w',
       add (mkWorld (Some (u "{}")) [u "a"; u "b"; u "c"; u "d"; u "e"] [] [])
       = (Raise DataError, w')
       /\ file w'
          = file (mkWorld (Some (u "{}"))
                    [u "a"; u "b"; u "c"; u "d"; u "e"] [] []).
Proof.
  split; [reflexivity|]. split; [discriminate|].
  apply (add_refuses_a_store_that_is_no_list
           (mkWorld (Some (u "{}")) [u "a"; u "b"; u "c"; u "d"; u "e"] [] [])
           (VDict []) (u "a") (u "b") (u "c") (u "d") (u "e") []);
    [reflexivity | discriminate | reflexivity].
Defined.

(** ** The transcript of play *)

Lemma count_app p a b : count p (a ++ b) = (count p a + count p b)%nat.
Proof. unfold count. now rewrite filter_app, length_app. Qed.

Lemma headers_from_S i k n :
  headers_from i (S k) n = RoundHeader (i + 1) n :: headers_from (i + 1) k n.
Proof.
  unfold headers_from. cbn [seq map]. f_equal.
  rewrite <- seq_shift, map_map. apply map_ext. intros j. f_equal. lia.
Qed.

Lemma play_rounds_transcript lower gq : forall i n score w,
  Forall playable gq ->
  (length gq <= length (stdin w))%nat ->
  exists t out,
    play_rounds lower gq i n score w
    = (Ok (score + Z.of_nat (count is_correct out))%Z,
       mkWorld (file w) (skipn (length gq) (stdin w)) t (stdout w ++ out))
    /\ (count is_correct out + count is_incorrect out = length gq)%nat
    /\ filter is_round_header out = headers_from i (length gq) n
    /\ asked out = map latin_of gq.
Proof.
  induction gq as [|q rest IH]; intros i n score w Hp Hin.
  - exists (rng w), []. destruct w. cbn.
    rewrite app_nil_r, Z.add_0_r. auto.
  - inversion Hp as [|? ? (d & latin & en & au & wo & Hq & Hl & He & Ha & Hw)
                        Hrest]; subst.
    destruct (stdin w) as [|line lines] eqn:Hs; [cbn in Hin; lia|].
    rewrite (play_round_step lower (VDict d) rest i n score w line lines d
               latin en au wo eq_refl Hl He Ha Hw Hs).
    match goal with
    | |- context [play_rounds lower rest ?i' n ?s' ?w'] =>
        destruct (IH i' n s' w' Hrest)
          as (t & out & Hr & Hcount & Hhead & Hask);
          [cbn in Hin |- *; lia|]; rewrite Hr
    end.
    cbn [file stdin stdout length skipn].
    match goal with
    | |- context [stdout w ++ ?round] =>
        match round with
        | [_; _; _; _] => exists t, (round ++ out)
        end
    end.
    assert (Hlat : latin_of (VDict d) = latin).
    { unfold latin_of. cbn [subscript]. now rewrite Hl. }
    rewrite headers_from_S, asked_app, !count_app, Hask.
    cbn [map]. rewrite Hlat.
    match goal with
    | |- context [answers_match ?l ?a ?b] => destruct (answers_match l a b)
    end; cbn [count filter is_correct is_incorrect is_round_header length app
              asked flat_map map];
      (split; [rewrite <- app_assoc; do 2 f_equal; lia|]);
      (split; [lia|]); (split; [now rewrite Hhead | reflexivity]).
Qed.

(** X12: in a session of [n = min rounds k] rounds in which every
    question is answered, the rounds are numbered 1 to [n] in order, each
    round ends with one verdict, and the final score printed is the number
    of "correct" verdicts, out of [n]; exactly [n] lines are read and the
    file is not modified. *)
Theorem play_score_counts_correct_answers
  (lower : str -> str) (rounds : Z) (w : world) (qs : list value) :
  collection_of (file w) = Some (VList qs) ->
  qs <> [] ->
  (0 <= rounds)%Z ->
  Forall playable qs ->
  (Z.to_nat (Z.min rounds (Z.of_nat (length qs))) <= length (stdin w))%nat ->
  let n := Z.min rounds (Z.of_nat (length qs)) in
  exists out w',
    play lower rounds w = (Ok tt, w')
    /\ stdout w'
       = stdout w ++ [Welcome] ++ out
         ++ [GameOver; FinalScore (Z.of_nat (count is_correct out)) n]
    /\ (count is_correct out + count is_incorrect out = Z.to_nat n)%nat
    /\ filter is_round_header out = headers_from 0 (Z.to_nat n) n
    /\ stdin w' = skipn (Z.to_nat n) (stdin w)
    /\ file w' = file w.
Proof.
  intros Hc Hne Hr Hp Hin n.
  destruct qs as [|q qs']; [easy|].
  rewrite (play_unfold lower rounds w q qs' Hc).
  set (qs := q :: qs') in *. fold n.
  set (w1 := mkWorld _ _ _ _). cbv zeta.
  destruct (random_sample_spec qs n w1) as (gq & t & Hs & Hlen & rest & Hperm);
    [unfold n; lia|].
  unfold bind at 1. rewrite Hs.
  set (w2 := mkWorld _ _ _ _).
  assert (Hpg : Forall playable gq).
  { apply Permutation_sym in Hperm.
    apply (Permutation_Forall Hperm) in Hp.
    now apply Forall_app in Hp. }
  destruct (play_rounds_transcript lower gq 0 n 0 w2 Hpg)
    as (t' & out & Hplay & Hcount & Hhead & _); [cbn; fold n; lia|].
  rewrite Z.add_0_l in Hplay.
  unfold bind at 1. rewrite Hplay.
  unfold bind, print. cbn [file stdin rng stdout].
  exists out. eexists. split; [reflexivity|].
  cbn [file stdin rng stdout]. rewrite Hlen in *.
  repeat split; try assumption.
  unfold w2, w1. cbn [stdout]. now rewrite <- !app_assoc.
Qed.

Lemma play_score_counts_correct_answers_witness :
  collection_of (file play_world) = Some (VList [caesar; cicero])
  /\ [caesar; cicero] <> []
  /\ (0 <= 5)%Z
  /\ Forall playable [caesar; cicero]
  /\ (Z.to_nat (Z.min 5 (Z.of_nat (length [caesar; cicero])))
      <= length (stdin play_world))%nat
  /\ exists out w',
       play ascii_lower 5 play_world = (Ok tt, w')
       /\ stdout w'
          = stdout play_world ++ [Welcome] ++ out
            ++ [GameOver;
                FinalScore (Z.of_nat (count is_correct out))
                  (Z.min 5 (Z.of_nat (length [caesar; cicero])))]
       /\ (count is_correct out + count is_incorrect out
           = Z.to_nat (Z.min 5 (Z.of_nat (length [caesar; cicero]))))%nat
       /\ filter is_round_header out
          = headers_from 0
              (Z.to_nat (Z.min 5 (Z.of_nat (length [caesar; cicero]))))
              (Z.min 5 (Z.of_nat (length [caesar; cicero])))
       /\ stdin w'
          = skipn (Z.to_nat (Z.min 5 (Z.of_nat (length [caesar; cicero]))))
              (stdin play_world)
       /\ file w' = file play_world.
Proof.
  assert (H1 : collection_of (file play_world) = Some (VList [caesar; cicero]))
    by reflexivity.
  assert (H2 : [caesar; cicero] <> []) by discriminate.
  assert (H3 : (0 <= 5)%Z) by lia.
  assert (H4 : Forall playable [caesar; cicero]).
  { repeat constructor; do 5 eexists; repeat split; reflexivity. }
  assert (H5 : (Z.to_nat (Z.min 5 (Z.of_nat (length [caesar; cicero])))
                <= length (stdin play_world))%nat) by (vm_compute; lia).
  repeat (split; [assumption|]).
  exact (play_score_counts_correct_answers ascii_lower 5 play_world
           [caesar; cicero] H1 H2 H3 H4 H5).
Defined.

Lemma play_whole_collection
  (lower : str -> str) (rounds : Z) (w : world) (qs : list value) :
  collection_of (file w) = Some (VList qs) ->
  qs <> [] ->
  (Z.of_nat (length qs) <= rounds)%Z ->
  Forall playable qs ->
  (length qs <= length (stdin w))%nat ->
  exists game_quotes out w',
    play lower rounds w = (Ok tt, w')
    /\ stdout w' = stdout w ++ out
    /\ asked out = map latin_of game_quotes
    /\ Permutation game_quotes qs.
Proof.
  intros Hc Hne Hr Hp Hin.
  destruct qs as [|q qs']; [easy|].
  rewrite (play_unfold lower rounds w q qs' Hc).
  set (qs := q :: qs') in *.
  replace (Z.min rounds (Z.of_nat (length qs))) with (Z.of_nat (length qs))
    by lia.
  set (n := Z.of_nat (length qs)).
  set (w1 := mkWorld _ _ _ _). cbv zeta.
  destruct (random_sample_spec qs n w1) as (gq & t & Hs & Hlen & rest & Hperm);
    [unfold n; lia|].
  unfold n in Hlen. rewrite Nat2Z.id in Hlen.
  assert (Hrest : rest = []).
  { apply Permutation_length in Hperm. rewrite length_app in Hperm.
    destruct rest; [reflexivity | cbn [length] in Hperm; lia]. }
  subst rest. rewrite app_nil_r in Hperm.
  unfold bind at 1. rewrite Hs.
  set (w2 := mkWorld _ _ _ _).
  assert (Hpg : Forall playable gq).
  { apply Permutation_sym in Hperm. now apply (Permutation_Forall Hperm). }
  destruct (play_rounds_transcript lower gq 0 n 0 w2 Hpg)
    as (t' & out & Hplay & _ & _ & Hask); [cbn; lia|].
  unfold bind at 1. rewrite Hplay.
  unfold bind, print. cbn [file stdin rng stdout].
  exists gq,
    ([Welcome] ++ out
     ++ [GameOver; FinalScore (0 + Z.of_nat (count is_correct out)) n]).
  eexists. split; [reflexivity|].
  unfold w2, w1. cbn [file stdin rng stdout].
  split; [now rewrite <- !app_assoc|].
  rewrite !asked_app. cbn [asked flat_map app]. rewrite app_nil_r.
  fold (asked out). split; [exact Hask | exact Hperm].
Qed.

(** X13: with [rounds] at least the number of quotes, [play] asks every
    stored quote exactly once: the Latin texts asked are a rearrangement of
    the Latin texts stored. *)
Theorem play_asks_every_quote_once
  (lower : str -> str) (rounds : Z) (w : world) (qs : list value) :
  collection_of (file w) = Some (VList qs) ->
  qs <> [] ->
  (Z.of_nat (length qs) <= rounds)%Z ->
  Forall playable qs ->
  (length qs <= length (stdin w))%nat ->
  exists out w',
    play lower rounds w = (Ok tt, w')
    /\ stdout w' = stdout w ++ out
    /\ Permutation (asked out) (map latin_of qs)
    /\ length (asked out) = length qs.
Proof.
  intros Hc Hne Hr Hp Hin.
  destruct (play_whole_collection lower rounds w qs Hc Hne Hr Hp Hin)
    as (gq & out & w' & Hplay & Hout & Hask & Hperm).
  exists out, w'. split; [exact Hplay|]. split; [exact Hout|].
  rewrite Hask. split.
  - now apply Permutation_map.
  - rewrite length_map. now apply Permutation_length.
Qed.

Lemma play_asks_every_quote_once_witness :
  collection_of (file play_world) = Some (VList [caesar; cicero])
  /\ [caesar; cicero] <> []
  /\ (Z.of_nat (length [caesar; cicero]) <= 5)%Z
  /\ Forall playable [caesar; cicero]
  /\ (length [caesar; cicero] <= length (stdin play_world))%nat
  /\ exists out w',
       play ascii_lower 5 play_world = (Ok tt, w')
       /\ stdout w' = stdout play_world ++ out
       /\ Permutation (asked out) (map latin_of [caesar; cicero])
       /\ length (asked out) = length [caesar; cicero].
Proof.
  assert (H1 : collection_of (file play_world) = Some (VList [caesar; cicero]))
    by reflexivity.
  assert (H2 : [caesar; cicero] <> []) by discriminate.
  assert (H3 : (Z.of_nat (length [caesar; cicero]) <= 5)%Z)
    by (vm_compute; discriminate).
  assert (H4 : Forall playable [caesar; cicero]).
  { repeat constructor; do 5 eexists; repeat split; reflexivity. }
  assert (H5 : (length [caesar; cicero] <= length (stdin play_world))%nat)
    by (vm_compute; lia).
  repeat (split; [assumption|]).
  exact (play_asks_every_quote_once ascii_lower 5 play_world
           [caesar; cicero] H1 H2 H3 H4 H5).
Defined.

(** ** play when the input ends or a quote is incomplete *)

Lemma play_round_eof lower quote rest i n score w d latin en au wo :
  quote = VDict d ->
  dict_get d (u "latin_text") = Some latin ->
  dict_get d (u "english_translation") = Some (VStr en) ->
  dict_get d (u "author") = Some (VStr au) ->
  dict_get d (u "work") = Some (VStr wo) ->
  stdin w = [] ->
  play_rounds lower (quote :: rest) i n score w
  = (Raise EOFError,
     mkWorld (file w) [] (tl (rng w))
       (stdout w ++ [RoundHeader (i + 1) n; Question (mode_of (rng w)) latin;
                     AnswerPrompt])).
Proof.
  intros -> Hl He Ha Hw Hin.
  destruct w as [f sin rg out]. cbn [file stdin rng stdout] in *. subst sin.
  cbn [play_rounds].
  unfold bind, print, random_choice_mode, randbelow, lift, input, ret, bind.
  cbn [file stdin rng stdout subscript].
  assert (Hmode : forall m : game_mode,
             dict_get d match m with
                        | Translate => u "english_translation"
                        | Author => u "author"
                        | Work => u "work"
                        end
             = Some (VStr match m with
                          | Translate => en
                          | Author => au
                          | Work => wo
                          end)).
  { intros [| |]; assumption. }
  destruct rg as [|x t]; cbn [tl file stdin rng stdout mode_of];
    rewrite Hl, Hmode; cbn [file stdin rng stdout];
    rewrite <- !app_assoc; reflexivity.
Qed.

Lemma play_rounds_eof lower gq : forall i n score w,
  Forall playable gq ->
  (length (stdin w) < length gq)%nat ->
  exists t out,
    play_rounds lower gq i n score w
    = (Raise EOFError,
       mkWorld (file w) [] t (stdout w ++ out ++ [AnswerPrompt]))
    /\ length (asked out) = S (length (stdin w)).
Proof.
  induction gq as [|q rest IH]; intros i n score w Hp Hin;
    [cbn in Hin; lia|].
  inversion Hp as [|? ? (d & latin & en & au & wo & Hq & Hl & He & Ha & Hw)
                      Hrest]; subst.
  destruct (stdin w) as [|line lines] eqn:Hs.
  - rewrite (play_round_eof lower (VDict d) rest i n score w d latin en au wo
               eq_refl Hl He Ha Hw Hs).
    exists (tl (rng w)),
      [RoundHeader (i + 1) n; Question (mode_of (rng w)) latin].
    split; reflexivity.
  - rewrite (play_round_step lower (VDict d) rest i n score w line lines d
               latin en au wo eq_refl Hl He Ha Hw Hs).
    match goal with
    | |- context [play_rounds lower rest ?i' n ?s' ?w'] =>
        destruct (IH i' n s' w' Hrest) as (t & out & Hr & Hask);
          [cbn in Hin |- *; lia|]; rewrite Hr
    end.
    cbn [file stdin stdout length] in *.
    match goal with
    | |- context [stdout w ++ ?round] =>
        match round with
        | [_; _; _; _] => exists t, (round ++ out)
        end
    end.
    split; [now rewrite <- !app_assoc|].
    rewrite asked_app, length_app, Hask.
    match goal with
    | |- context [answers_match ?l ?a ?b] => destruct (answers_match l a b)
    end; reflexivity.
Qed.

(** X14: when the input ends before the session does, [play] raises
    [EOFError] at the first answer prompt that finds no line: one more
    question has been asked than lines were typed, the prompt is the last
    thing printed, and the file is not modified. *)
Theorem play_stops_at_end_of_input
  (lower : str -> str) (rounds : Z) (w : world) (qs : list value) :
  collection_of (file w) = Some (VList qs) ->
  (0 <= rounds)%Z ->
  Forall playable qs ->
  (length (stdin w) < Z.to_nat (Z.min rounds (Z.of_nat (length qs))))%nat ->
  exists out w',
    play lower rounds w = (Raise EOFError, w')
    /\ stdout w' = stdout w ++ [Welcome] ++ out ++ [AnswerPrompt]
    /\ length (asked out) = S (length (stdin w))
    /\ stdin w' = []
    /\ file w' = file w.
Proof.
  intros Hc Hr Hp Hin.
  destruct qs as [|q qs']; [cbn in Hin; lia|].
  rewrite (play_unfold lower rounds w q qs' Hc).
  set (qs := q :: qs') in *.
  set (n := Z.min rounds (Z.of_nat (length qs))) in *.
  set (w1 := mkWorld _ _ _ _). cbv zeta.
  destruct (random_sample_spec qs n w1) as (gq & t & Hs & Hlen & rest & Hperm);
    [unfold n; lia|].
  unfold bind at 1. rewrite Hs.
  set (w2 := mkWorld _ _ _ _).
  assert (Hpg : Forall playable gq).
  { apply Permutation_sym in Hperm.
    apply (Permutation_Forall Hperm) in Hp.
    now apply Forall_app in Hp. }
  destruct (play_rounds_eof lower gq 0 n 0 w2 Hpg)
    as (t' & out & Hplay & Hask); [cbn; lia|].
  unfold bind at 1. rewrite Hplay.
  exists out. eexists. split; [reflexivity|].
  unfold w2, w1 in *. cbn [file stdin rng stdout] in *.
  repeat split; try assumption. now rewrite <- !app_assoc.
Qed.

Lemma play_stops_at_end_of_input_witness :
  collection_of (file (mkWorld (file_of example_quotes) [u "caesar"] [] []))
  = Some (VList [caesar; cicero])
  /\ (0 <= 2)%Z
  /\ Forall playable [caesar; cicero]
  /\ (length (stdin (mkWorld (file_of example_quotes) [u "caesar"] [] []))
      < Z.to_nat (Z.min 2 (Z.of_nat (length [caesar; cicero]))))%nat
  /\ exists out w',
       play ascii_lower 2 (mkWorld (file_of example_quotes) [u "caesar"] [] [])
       = (Raise EOFError, w')
       /\ stdout w' = [] ++ [Welcome] ++ out ++ [AnswerPrompt]
       /\ length (asked out) = 2%nat
       /\ stdin w' = []
       /\ file w' = file_of example_quotes.
Proof.
  assert (H1 : collection_of
                 (file (mkWorld (file_of example_quotes) [u "caesar"] [] []))
               = Some (VList [caesar; cicero])) by reflexivity.
  assert (H3 : (0 <= 2)%Z) by lia.
  assert (H4 : Forall playable [caesar; cicero]).
  { repeat constructor; do 5 eexists; repeat split; reflexivity. }
  assert (H5 : (length (stdin (mkWorld (file_of example_quotes)
                                 [u "caesar"] [] []))
                < Z.to_nat (Z.min 2 (Z.of_nat (length [caesar; cicero]))))%nat)
    by (vm_compute; lia).
  repeat (split; [assumption|]).
  exact (play_stops_at_end_of_input ascii_lower 2
           (mkWorld (file_of example_quotes) [u "caesar"] [] [])
           [caesar; cicero] H1 H3 H4 H5).
Defined.

Lemma play_rounds_incomplete_quote lower q gq : forall i n score w,
  In q gq ->
  (forall v, subscript q (u "latin_text") <> Ok v) ->
  exists e w',
    play_rounds lower gq i n score w = (Raise e, w')
    /\ (e = DataError \/ e = EOFError).
Proof.
  induction gq as [|q0 rest IH]; intros i n score w Hin Hbad; [easy|].
  cbn [play_rounds].
  unfold bind at 1. unfold print at 1.
  unfold bind at 1. unfold random_choice_mode, bind at 1.
  set (w1 := mkWorld _ _ _ _).
  destruct (randbelow 3 w1) as [[j|e0] w2] eqn:Ej.
  2:{ unfold randbelow in Ej. destruct (rng w1); discriminate Ej. }
  unfold ret at 1. unfold bind at 1. unfold lift at 1.
  destruct (subscript q0 (u "latin_text")) as [latin|e1] eqn:E1.
  2:{ apply subscript_error in E1. subst. eexists _, _. split; eauto. }
  destruct Hin as [-> | Hin]; [now destruct (Hbad latin)|].
  unfold bind at 1. unfold lift at 1.
  match goal with
  | |- context [subscript q0 ?k] =>
      destruct (subscript q0 k) as [answer|e2] eqn:E2
  end.
  2:{ apply subscript_error in E2. subst. eexists _, _. split; eauto. }
  unfold bind at 1. unfold print at 1.
  unfold bind at 1. unfold input at 1. cbn [file stdin rng stdout].
  destruct (stdin w2) as [|line lines].
  { eexists _, _. split; eauto. }
  unfold bind at 1. unfold lift at 1.
  destruct (as_str answer) as [a|e3] eqn:E3.
  2:{ apply as_str_error in E3. subst. eexists _, _. split; eauto. }
  destruct (answers_match lower line a);
    unfold bind at 1; unfold print at 1; now apply IH.
Qed.

(** X15: [play] has no default for a missing field, unlike [list]: with
    [rounds] at least the number of quotes, one stored item without a
    [latin_text] (or that is not a dictionary) makes the session fail,
    with [KeyError] or [TypeError] at the latest when its round comes, or
    with [EOFError] if the input ends before. *)
Theorem play_needs_the_latin_text_of_every_quote
  (lower : str -> str) (rounds : Z) (w : world) (qs : list value)
  (q : value) :
  collection_of (file w) = Some (VList qs) ->
  In q qs ->
  (forall v, subscript q (u "latin_text") <> Ok v) ->
  (Z.of_nat (length qs) <= rounds)%Z ->
  exists e w',
    play lower rounds w = (Raise e, w')
    /\ (e = DataError \/ e = EOFError).
Proof.
  intros Hc Hin Hbad Hr.
  destruct qs as [|q0 qs']; [easy|].
  rewrite (play_unfold lower rounds w q0 qs' Hc).
  set (qs := q0 :: qs') in *.
  replace (Z.min rounds (Z.of_nat (length qs))) with (Z.of_nat (length qs))
    by lia.
  set (n := Z.of_nat (length qs)).
  set (w1 := mkWorld _ _ _ _). cbv zeta.
  destruct (random_sample_spec qs n w1) as (gq & t & Hs & Hlen & rest & Hperm);
    [unfold n; lia|].
  unfold n in Hlen. rewrite Nat2Z.id in Hlen.
  assert (Hrest : rest = []).
  { apply Permutation_length in Hperm. rewrite length_app in Hperm.
    destruct rest; [reflexivity | cbn [length] in Hperm; lia]. }
  subst rest. rewrite app_nil_r in Hperm.
  unfold bind at 1. rewrite Hs.
  assert (Hq : In q gq).
  { apply Permutation_sym in Hperm. now apply (Permutation_in q Hperm). }
  match goal with
  | |- context [play_rounds lower gq ?i ?m ?s] =>
      destruct (play_rounds_incomplete_quote lower q gq i m s
                  (mkWorld (file w1) (stdin w1) t (stdout w1)) Hq Hbad)
        as (e & w' & Hplay & He)
  end.
  unfold bind at 1. rewrite Hplay. now exists e, w'.
Qed.

Lemma play_needs_the_latin_text_of_every_quote_witness :
  collection_of (file (mkWorld (file list_world) [u "a"; u "b"] [] []))
  = Some (VList [caesar; VDict [(u "id", VInt 9)]])
  /\ In (VDict [(u "id", VInt 9)]) [caesar; VDict [(u "id", VInt 9)]]
  /\ (forall v, subscript (VDict [(u "id", VInt 9)]) (u "latin_text") <> Ok v)
  /\ (Z.of_nat (length [caesar; VDict [(u "id", VInt 9)]]) <= 2)%Z
  /\ fst (play ascii_lower 2 (mkWorld (file list_world) [u "a"; u "b"] [] []))
     = Raise DataError
  /\ exists e w',
       play ascii_lower 2 (mkWorld (file list_world) [u "a"; u "b"] [] [])
       = (Raise e, w')
       /\ (e = DataError \/ e = EOFError).
Proof.
  assert (H1 : collection_of
                 (file (mkWorld (file list_world) [u "a"; u "b"] [] []))
               = Some (VList [caesar; VDict [(u "id", VInt 9)]]))
    by reflexivity.
  assert (H2 : In (VDict [(u "id", VInt 9)])
                 [caesar; VDict [(u "id", VInt 9)]]) by (right; now left).
  assert (H3 : forall v,
             subscript (VDict [(u "id", VInt 9)]) (u "latin_text") <> Ok v)
    by (intros v; discriminate).
  assert (H4 : (Z.of_nat (length [caesar; VDict [(u "id", VInt 9)]]) <= 2)%Z)
    by (vm_compute; discriminate).
  repeat (split; [assumption|]).
  split; [reflexivity|].
  exact (play_needs_the_latin_text_of_every_quote ascii_lower 2
           (mkWorld (file list_world) [u "a"; u "b"] [] [])
           [caesar; VDict [(u "id", VInt 9)]] (VDict [(u "id", VInt 9)])
           H1 H2 H3 H4).
Defined.

(** ** list when a quote has no id *)

Lemma not_listable_subscript q :
  ~ listable q -> subscript q (u "id") = Raise DataError.
Proof.
  intros H. destruct q as [ | | | | |d]; try reflexivity.
  cbn [subscript]. destruct (dict_get d (u "id")) as [id|] eqn:E;
    [|reflexivity].
  exfalso. apply H. now exists d, id.
Qed.

Lemma list_loop_stops pre bad post : forall w,
  Forall listable pre ->
  ~ listable bad ->
  list_loop (pre ++ bad :: post) w
  = (Raise DataError,
     mkWorld (file w) (stdin w) (rng w)
       (stdout w ++ flat_map quote_lines pre)).
Proof.
  induction pre as [|q pre IH]; intros w Hpre Hbad; cbn [app list_loop].
  - unfold bind, list_quote, bind, lift.
    rewrite (not_listable_subscript bad Hbad). cbn [flat_map].
    now rewrite app_nil_r, world_eta.
  - inversion Hpre as [|? ? Hq Hpre']; subst.
    unfold bind. rewrite (list_quote_ok q w Hq), (IH _ Hpre' Hbad).
    cbn [file stdin rng stdout flat_map]. now rewrite <- app_assoc.
Qed.

(** X16: [list] prints the header and the quotes that come before the
    first item without an [id], then raises [KeyError] ([TypeError] when
    the item is not a dictionary): neither the later quotes nor the footer
    are printed. *)
Theorem list_stops_at_the_first_quote_without_id
  (w : world) (pre post : list value) (bad : value) :
  collection_of (file w) = Some (VList (pre ++ bad :: post)) ->
  Forall listable pre ->
  ~ listable bad ->
  list_quotes w
  = (Raise DataError,
     mkWorld (file w) (stdin w) (rng w)
       (stdout w ++ [ListHeader] ++ flat_map quote_lines pre)).
Proof.
  intros Hc Hpre Hbad. unfold list_quotes. unfold bind at 1.
  rewrite (load_quotes_spec w _ Hc).
  rewrite (collection_nonempty _ _ Hc) by (destruct pre; reflexivity).
  assert (Ht : truthy (VList (pre ++ bad :: post)) = true)
    by (destruct pre; reflexivity).
  rewrite Ht. cbn [negb]. unfold bind, print, lift.
  cbn [py_iter file stdin rng stdout].
  rewrite (list_loop_stops pre bad post _ Hpre Hbad).
  cbn [file stdin rng stdout]. now rewrite <- !app_assoc.
Qed.

Lemma list_stops_at_the_first_quote_without_id_witness :
  collection_of
    (file (mkWorld
             (file_of (VList ([caesar]
                              ++ VDict [(u "latin_text", VStr (u "Veni"))]
                                 :: [cicero])))
             [] [] []))
  = Some (VList ([caesar] ++ VDict [(u "latin_text", VStr (u "Veni"))]
                             :: [cicero]))
  /\ Forall listable [caesar]
  /\ ~ listable (VDict [(u "latin_text", VStr (u "Veni"))])
  /\ list_quotes
       (mkWorld
          (file_of (VList ([caesar]
                           ++ VDict [(u "latin_text", VStr (u "Veni"))]
                              :: [cicero])))
          [] [] [])
     = (Raise DataError,
        mkWorld
          (file_of (VList ([caesar]
                           ++ VDict [(u "latin_text", VStr (u "Veni"))]
                              :: [cicero])))
          [] []
          ([] ++ [ListHeader] ++ flat_map quote_lines [caesar])).
Proof.
  assert (H2 : Forall listable [caesar]).
  { repeat constructor; do 2 eexists; split; reflexivity. }
  assert (H3 : ~ listable (VDict [(u "latin_text", VStr (u "Veni"))])).
  { intros (d & id & Hq & Hid). inversion Hq; subst. discriminate Hid. }
  split; [reflexivity|]. split; [exact H2|]. split; [exact H3|].
  apply (list_stops_at_the_first_quote_without_id
           (mkWorld
              (file_of (VList ([caesar]
                               ++ VDict [(u "latin_text", VStr (u "Veni"))]
                                  :: [cicero])))
              [] [] [])
           [caesar] [cicero] (VDict [(u "latin_text", VStr (u "Veni"))]));
    [reflexivity | exact H2 | exact H3].
Defined.

(** ** What play and list leave alone *)

Lemma sample_loop_keeps k : forall n i pool,
  preserves file (sample_loop k n i pool)
  /\ preserves stdin (sample_loop k n i pool)
  /\ preserves stdout (sample_loop k n i pool).
Proof.
  induction k as [|k IH]; intros n i pool; cbn [sample_loop].
  - repeat split.
  - repeat split; (apply preserves_bind; [apply randbelow_keeps | intros j]);
      (apply preserves_bind; [apply IH | intros r; apply preserves_ret]).
Qed.

Lemma random_sample_keeps population k :
  preserves file (random_sample population k)
  /\ preserves stdin (random_sample population k)
  /\ preserves stdout (random_sample population k).
Proof.
  unfold random_sample.
  destruct population as [ | | |s|l|d]; try (repeat split; fail);
    cbn [py_iter];
    match goal with
    | |- context [if ?b then _ else _] => destruct b
    end; try (repeat split; fail); apply sample_loop_keeps.
Qed.

Lemma play_rounds_keeps_file lower gq : forall i n score,
  preserves file (play_rounds lower gq i n score).
Proof.
  induction gq as [|q rest IH]; intros i n score; cbn [play_rounds].
  - apply preserves_ret.
  - apply preserves_bind; [apply print_keeps | intros _].
    apply preserves_bind; [|intros m].
    { apply preserves_bind; [apply randbelow_keeps | intros j].
      apply preserves_ret. }
    apply preserves_bind; [apply preserves_lift | intros latin].
    apply preserves_bind; [apply preserves_lift | intros answer].
    apply preserves_bind; [apply print_keeps | intros _].
    apply preserves_bind; [apply input_keeps | intros line].
    apply preserves_bind; [apply preserves_lift | intros a].
    destruct (answers_match lower line a);
      (apply preserves_bind; [apply print_keeps | intros _; apply IH]).
Qed.

(** After [load_quotes], a computation that keeps the file. *)
Lemma after_load_file {A : Type} (k : value -> M A) w :
  (forall v, preserves file (k v)) ->
  file (snd (bind load_quotes k w)) = created (file w).
Proof.
  intros Hk. unfold bind.
  pose proof (proj1 load_quotes_keeps w) as Hl.
  destruct (load_quotes w) as [[v|e] w1]; cbn [snd] in *; [|exact Hl].
  now rewrite Hk.
Qed.

(** X17: [play] never modifies a file that exists, whatever the
    outcome (a normal end, [typer.Exit], an exception); an absent file is
    created holding an empty JSON array. *)
Theorem play_never_writes_the_file
  (lower : str -> str) (rounds : Z) (w : world) :
  file (snd (play lower rounds w)) = created (file w)
  /\ (forall content, created (Some content) = Some content)
  /\ created None = Some (u "[]").
Proof.
  split; [|split; reflexivity].
  unfold play. apply after_load_file. intros quotes.
  destruct (negb (truthy quotes)).
  - apply preserves_bind; [apply print_keeps | intros _].
    apply preserves_raise.
  - apply preserves_bind; [apply print_keeps | intros _].
    apply preserves_bind; [apply preserves_lift | intros len].
    apply preserves_bind; [apply random_sample_keeps | intros gq].
    apply preserves_bind; [apply play_rounds_keeps_file | intros score].
    apply preserves_bind; [apply print_keeps | intros _].
    apply print_keeps.
Qed.

Lemma list_quote_keeps quote :
  preserves file (list_quote quote) /\ preserves stdin (list_quote quote)
  /\ preserves rng (list_quote quote).
Proof.
  unfold list_quote.
  repeat split;
    repeat first
      [ apply preserves_lift | apply preserves_ret | apply print_keeps
      | apply preserves_bind; [|intros ?]
      | match goal with
        | |- context [if ?b then _ else _] => destruct b
        end ].
Qed.

Lemma list_loop_keeps quotes :
  preserves file (list_loop quotes) /\ preserves stdin (list_loop quotes)
  /\ preserves rng (list_loop quotes).
Proof.
  induction quotes as [|q rest (IH1 & IH2 & IH3)]; cbn [list_loop].
  - repeat split.
  - repeat split;
      (apply preserves_bind; [apply list_quote_keeps | intros _; assumption]).
Qed.

(** X18: [list] only reads: whatever the outcome, a file that exists
    is not modified (an absent one is created holding an empty JSON
    array), no line is read from the console and no random number is
    drawn. *)
Theorem list_only_reads (w : world) :
  file (snd (list_quotes w)) = created (file w)
  /\ stdin (snd (list_quotes w)) = stdin w
  /\ rng (snd (list_quotes w)) = rng w.
Proof.
  assert (Hk : forall quotes,
             let k := if negb (truthy quotes) then print DatabaseEmpty
                      else print ListHeader ;;
                           qs <- lift (py_iter quotes) ;;
                           list_loop qs ;; print ListFooter in
             preserves file k /\ preserves stdin k /\ preserves rng k).
  { intros quotes. cbv zeta. destruct (negb (truthy quotes)).
    - apply print_keeps.
    - repeat split;
        (apply preserves_bind; [apply print_keeps | intros _]);
        (apply preserves_bind; [apply preserves_lift | intros qs]);
        (apply preserves_bind; [apply list_loop_keeps | intros _]);
        apply print_keeps. }
  split; [|split].
  - unfold list_quotes. apply after_load_file. intros v. apply Hk.
  - apply (preserves_bind stdin); [apply load_quotes_keeps|].
    intros v. apply Hk.
  - apply (preserves_bind rng); [apply load_quotes_keeps|].
    intros v. apply Hk.
Qed.

(** ** Surrounding white space *)

Lemma lstrip_whitespace s : whitespace s -> lstrip s = [].
Proof.
  induction 1 as [|c s Hc _ IH]; cbn [lstrip]; [reflexivity|].
  now rewrite Hc.
Qed.

Lemma lstrip_app_whitespace pre s :
  whitespace pre -> lstrip (pre ++ s) = lstrip s.
Proof.
  induction 1 as [|c pre Hc _ IH]; cbn [app lstrip]; [reflexivity|].
  now rewrite Hc.
Qed.

Lemma lstrip_app a b :
  lstrip (a ++ b)
  = match lstrip a with
    | [] => lstrip b
    | _ :: _ => lstrip a ++ b
    end.
Proof.
  induction a as [|c a IH]; cbn [app lstrip]; [reflexivity|].
  destruct (is_space c); [exact IH | reflexivity].
Qed.

Lemma whitespace_rev s : whitespace s -> whitespace (rev s).
Proof. apply Forall_rev. Qed.

Lemma strip_outer pre s post :
  whitespace pre -> whitespace post -> strip (pre ++ s ++ post) = strip s.
Proof.
  intros Hpre Hpost. unfold strip.
  rewrite (lstrip_app_whitespace pre _ Hpre), lstrip_app.
  destruct (lstrip s) as [|c l] eqn:E.
  - now rewrite (lstrip_whitespace post Hpost).
  - rewrite rev_app_distr.
    now rewrite (lstrip_app_whitespace (rev post)) by now apply whitespace_rev.
Qed.

(** X19: white space around the line typed or around the stored answer
    never changes the verdict, and the stored answer typed with any white
    space around it is always correct. *)
Theorem answers_match_ignores_outer_whitespace
  (lower : str -> str) (pre post user_input answer : str) :
  whitespace pre -> whitespace post ->
  answers_match lower (pre ++ user_input ++ post) answer
  = answers_match lower user_input answer
  /\ answers_match lower user_input (pre ++ answer ++ post)
     = answers_match lower user_input answer
  /\ answers_match lower (pre ++ answer ++ post) answer = true.
Proof.
  intros Hpre Hpost. unfold answers_match.
  rewrite !(strip_outer pre _ post Hpre Hpost).
  repeat split. apply str_eqb_refl.
Qed.

Lemma answers_match_ignores_outer_whitespace_witness :
  whitespace [32; 9] /\ whitespace [32; 160; 10]
  /\ answers_match ascii_lower ([32; 9] ++ u "CAESAR" ++ [32; 160; 10])
       (u "Caesar")
     = answers_match ascii_lower (u "CAESAR") (u "Caesar")
  /\ answers_match ascii_lower (u "CAESAR")
       ([32; 9] ++ u "Caesar" ++ [32; 160; 10])
     = answers_match ascii_lower (u "CAESAR") (u "Caesar")
  /\ answers_match ascii_lower ([32; 9] ++ u "Caesar" ++ [32; 160; 10])
       (u "Caesar")
     = true.
Proof.
  assert (H1 : whitespace [32; 9]) by (repeat constructor).
  assert (H2 : whitespace [32; 160; 10]) by (repeat constructor).
  split; [exact H1|]. split; [exact H2|].
  exact (answers_match_ignores_outer_whitespace ascii_lower [32; 9]
           [32; 160; 10] (u "CAESAR") (u "Caesar") H1 H2).
Defined.

(** ** Saving what was loaded *)



(** ** A stored value that counts as false *)

(** X21: a stored JSON value that Python takes as false ([null],
    [false], [0], an empty string, object or array) is an empty
    collection for [play], which prints the "no quotes" message and
    exits, and for [list], which reports an empty database. *)
Theorem falsy_store_counts_as_empty
  (lower : str -> str) (rounds : Z) (w : world) (v : value) :
  collection_of (file w) = Some v ->
  truthy v = false ->
  play lower rounds w
  = (Raise Exit,
     mkWorld (created (file w)) (stdin w) (rng w)
       (stdout w ++ [NoQuotesFound]))
  /\ list_quotes w
     = (Ok tt,
        mkWorld (created (file w)) (stdin w) (rng w)
          (stdout w ++ [DatabaseEmpty])).
Proof.
  intros Hc Ht. split.
  - unfold play, bind. rewrite (load_quotes_spec w _ Hc), Ht. reflexivity.
  - unfold list_quotes, bind. rewrite (load_quotes_spec w _ Hc), Ht.
    reflexivity.
Qed.

Lemma falsy_store_counts_as_empty_witness :
  collection_of (file (mkWorld (Some (u "{}")) [u "x"] [4] []))
  = Some (VDict [])
  /\ truthy (VDict []) = false
  /\ play ascii_lower 5 (mkWorld (Some (u "{}")) [u "x"] [4] [])
     = (Raise Exit, mkWorld (Some (u "{}")) [u "x"] [4] [NoQuotesFound])
  /\ list_quotes (mkWorld (Some (u "{}")) [u "x"] [4] [])
     = (Ok tt, mkWorld (Some (u "{}")) [u "x"] [4] [DatabaseEmpty]).
Proof.
  split; [reflexivity|]. split; [reflexivity|].
  apply (falsy_store_counts_as_empty ascii_lower 5
           (mkWorld (Some (u "{}")) [u "x"] [4] []) (VDict []));
    reflexivity.
Defined.

(** ** add, then play *)

Lemma new_quote_playable a1 a2 a3 a4 a5 id :
  playable (new_quote a1 a2 a3 a4 a5 id).
Proof. do 5 eexists. repeat split; reflexivity. Qed.

Lemma answers_length lines : (length (answers lines) <= length lines)%nat.
Proof. unfold answers. apply filter_length_le. Qed.



(** ** Any number of runs of add *)

Lemma add_runs_ok n : forall w qs ids id,
  collection_of (file w) = Some (VList qs) ->
  Forall2 has_id qs ids ->
  get_next_id (VList qs) = Ok id ->
  Forall scalar_text (answers (stdin w)) ->
  (5 * n <= length (answers (stdin w)))%nat ->
  exists w' new,
    add_runs n w = (Ok tt, w')
    /\ collection_of (file w') = Some (VList (qs ++ new))
    /\ Forall2 has_id new (map (fun j => (id + Z.of_nat j)%Z) (seq 0 n)).
Proof.
  induction n as [|n IH]; intros w qs ids id Hc Hids Hid Hsc Hlen.
  - exists w, []. cbn [add_runs seq map]. rewrite app_nil_r.
    split; [reflexivity|]. split; [exact Hc | constructor].
  - destruct (answers (stdin w)) as [|a1 [|a2 [|a3 [|a4 [|a5 rest]]]]] eqn:E;
      cbn [length] in Hlen; try lia.
    assert (Ha : Forall scalar_text [a1; a2; a3; a4; a5]
                 /\ Forall scalar_text rest).
    { change (a1 :: a2 :: a3 :: a4 :: a5 :: rest)
        with ([a1; a2; a3; a4; a5] ++ rest) in Hsc.
      now apply Forall_app in Hsc. }
    destruct Ha as [Ha Hrest].
    destruct (add_ok w qs a1 a2 a3 a4 a5 rest id Hc E Ha Hid)
      as (c1 & l1 & out1 & Hadd & E1 & _ & Hc1).
    set (w1 := mkWorld (Some c1) l1 (rng w)
                 (stdout w ++ out1 ++ [QuoteAdded id])) in *.
    set (q := new_quote a1 a2 a3 a4 a5 id) in *.
    destruct (IH w1 (qs ++ [q]) (ids ++ [id]) (id + 1)%Z)
      as (w' & new & Hruns & Hc' & Hnew).
    + exact Hc1.
    + apply Forall2_app; [exact Hids|].
      constructor; [apply new_quote_has_id | constructor].
    + apply (get_next_id_snoc qs ids);
        [exact Hids | exact Hid | apply new_quote_has_id].
    + cbn [stdin w1]. now rewrite E1.
    + cbn [stdin w1]. rewrite E1. lia.
    + exists w', (q :: new). cbn [add_runs]. unfold bind at 1.
      rewrite Hadd. split; [exact Hruns|]. split.
      * rewrite Hc'. now rewrite <- app_assoc.
      * cbn [seq map]. constructor.
        { rewrite Z.add_0_r. apply new_quote_has_id. }
        rewrite <- seq_shift, map_map.
        erewrite map_ext; [exact Hnew|].
        intros j. cbn beta. lia.
Qed.

Lemma consecutive_NoDup id n : forall a,
  NoDup (map (fun j => (id + Z.of_nat j)%Z) (seq a n)).
Proof.
  induction n as [|n IH]; intros a; cbn [seq map]; constructor; [|apply IH].
  intros H. apply in_map_iff in H. destruct H as (j & Hj & Hin).
  apply in_seq in Hin. lia.
Qed.


